(** * ExecMacro: encoding detection, macro execution and the macro registry

    A shallow embedding of [action.py] (class [ExecMacroAction]) and of the
    registry handlers of [config.py] (class [ConfigWidget]), with the
    properties of the specification proved over it.

    Python text is a sequence of code points; dictionaries are finite maps;
    the host application (dialogs, file chooser, [exec], codecs) is reached
    through an event log and through section variables. *)

From Stdlib Require Import NArith Ascii String.

From stdpp Require Import base option list gmap sorting.

Local Open Scope N_scope.

(** ** Text *)

(** A character is its code point; a Python [str] or [unicode] object is the
    list of its characters. *)
Abbreviation char := N.

Abbreviation text := (list N).

Definition chr (a : ascii) : char := N_of_ascii a.

(** [txt "abc"] is the text of a literal. *)
Definition txt (s : string) : text := map chr (list_ascii_of_string s).

Definition LF : char := 10.

Definition CR : char := 13.

(** Python 2 has two string types, and [splitlines] breaks lines differently
    for each: a byte string breaks at LF and CR only, a unicode string also at
    VT, FF, FS, GS, RS, NEL, LS and PS. *)
Inductive strkind := Bytes | Unicode.

Definition linebreak (k : strkind) (c : char) : bool :=
  match k with
  | Bytes => (c =? LF) || (c =? CR)
  | Unicode =>
      (c =? LF) || (c =? CR) || (c =? 11) || (c =? 12) || (c =? 28) ||
      (c =? 29) || (c =? 30) || (c =? 133) || (c =? 8232) || (c =? 8233)
  end.

(** [txt.splitlines()]: the lines without their terminators; CR LF is one
    terminator; a text that ends with a terminator has no empty last line.
    [cur] holds the characters of the line being read, last one first. *)
Fixpoint splitlines_from (k : strkind) (cur : text) (s : text) : list text :=
  match s with
  | [] => match cur with [] => [] | _ => [rev cur] end
  | c :: s' =>
      if linebreak k c then
        rev cur ::
          (if c =? CR then
             match s' with
             | d :: s'' =>
                 if d =? LF then splitlines_from k [] s''
                 else splitlines_from k [] s'
             | [] => splitlines_from k [] s'
             end
           else splitlines_from k [] s')
      else splitlines_from k (c :: cur) s'
  end.

Definition splitlines (k : strkind) (s : text) : list text :=
  splitlines_from k [] s.

(** ** Regular expressions *)

(** The patterns of [get_encoding] use single characters, character classes,
    greedy repetition of a class, one capturing group, alternation and the
    end anchor. A class is its membership test. *)
Definition cls := char -> bool.

Inductive regex :=
  | Chr (c : cls)            (* one character of the class *)
  | Star (c : cls)           (* [c*], greedy *)
  | Seq (r1 r2 : regex)
  | Alt (r1 r2 : regex)      (* [r1|r2], first alternative first *)
  | Group (r : regex)        (* [(r)], the capturing group *)
  | Eol.                     (* [$] *)

(** [c+] *)
Definition Plus (c : cls) : regex := Seq (Chr c) (Star c).

(** The class of one character. *)
Definition only (a : ascii) : cls := fun c => c =? chr a.

(** A literal, character by character; the empty literal matches the empty
    text. *)
Fixpoint Lit (s : string) : regex :=
  match s with
  | String a EmptyString => Chr (only a)
  | String a s' => Seq (Chr (only a)) (Lit s')
  | EmptyString => Star (fun _ => false)
  end.

(** [c*] in front of the continuation [k]: the longest run first, then one
    character less on failure (backtracking). *)
Fixpoint star {R} (c : cls) (k : text -> option R) (s : text) : option R :=
  match s with
  | x :: s' =>
      if c x then
        match star c k s' with
        | Some r => Some r
        | None => k s
        end
      else k s
  | [] => k []
  end.

(** The backtracking matcher, anchored where [s] starts. [g] is the capture
    of the group so far; [k] matches what follows [r] in the pattern. *)
Fixpoint rematch {R} (r : regex) (s : text) (g : option text)
    (k : text -> option text -> option R) : option R :=
  match r with
  | Chr c =>
      match s with
      | x :: s' => if c x then k s' g else None
      | [] => None
      end
  | Star c => star c (fun s' => k s' g) s
  | Seq r1 r2 => rematch r1 s g (fun s' g' => rematch r2 s' g' k)
  | Alt r1 r2 =>
      match rematch r1 s g k with
      | Some r => Some r
      | None => rematch r2 s g k
      end
  | Group r1 =>
      rematch r1 s g
        (fun s' _ => k s' (Some (take (length s - length s') s)))
  | Eol =>
      match s with
      | [] => k s g
      | x :: [] => if x =? LF then k s g else None
      | _ => None
      end
  end.

(** [pattern.match(s)]: [None] when there is no match at the start of [s],
    otherwise the match object, of which only [group(1)] is kept ([None] when
    the pattern has no group). *)
Definition re_match (r : regex) (s : text) : option (option text) :=
  rematch r s None (fun _ g => Some g).

(** The classes of the two patterns. [\w] is [[a-zA-Z0-9_]]: neither pattern
    is compiled with [re.UNICODE] or [re.LOCALE]. *)
Definition ws3 : cls := fun c => (c =? 32) || (c =? 9) || (c =? 12).

Definition ws2 : cls := fun c => (c =? 32) || (c =? 9).

Definition dot : cls := fun c => negb (c =? LF).

Definition word : cls := fun c =>
  ((97 <=? c) && (c <=? 122)) || ((65 <=? c) && (c <=? 90)) ||
  ((48 <=? c) && (c <=? 57)) || (c =? 95).

Definition namechar : cls := fun c => (c =? 45) || word c || (c =? 46).

Definition colon_eq : cls := fun c => (c =? 58) || (c =? 61).

Definition hash_cr_lf : cls := fun c => (c =? 35) || (c =? CR) || (c =? LF).

(** [r'^[ \t\f]*#.*coding[:=][ \t]*([-\w.]+)'] *)
Definition decl_re : regex :=
  Seq (Star ws3) (Seq (Chr (only "#")) (Seq (Star dot) (Seq (Lit "coding")
    (Seq (Chr colon_eq) (Seq (Star ws2) (Group (Plus namechar))))))).

(** [r'^[ \t\f]*(?:[#\r\n]|$)'] *)
Definition blank_re : regex :=
  Seq (Star ws3) (Alt (Chr hash_cr_lf) Eol).

(** ** Values, the preference store and the host *)

(** What a field of a macro record can hold (records come from the widgets
    or from an imported JSON document). Strings in the store are unicode
    objects. *)
Inductive pyval :=
  | PNone
  | PBool (b : bool)
  | PInt (z : Z)
  | PStr (s : text).

(** Python's truth value. *)
Definition truthy (v : pyval) : bool :=
  match v with
  | PNone => false
  | PBool b => b
  | PInt z => negb (z =? 0)%Z
  | PStr s => match s with [] => false | _ => true end
  end.

#[global] Instance pyval_eq_dec : EqDecision pyval.
Proof. solve_decision. Defined.

(** A macro record is a dictionary from field names to values; the registry
    [prefs['macros']] is a dictionary from macro names to records. *)
Abbreviation macro := (gmap text pyval).

Abbreviation registry := (gmap text (gmap text pyval)).

(** The part of the host that the plugin reads and writes: the two entries
    of [prefs] and the files by path. *)
Record host := Host {
  current_macro : text;
  macros : registry;
  files : gmap text text;
}.

(** The exceptions that the modelled code can meet. *)
Inductive exn :=
  | IndexError
  | KeyError (key : text)
  | IOError (path : text)
  | TypeError             (* [open] on a value that is no string *)
  | AttributeError        (* [splitlines] on a value that is no string *)
  | ValueError            (* [json.load] on a malformed document *)
  | CodecError (enc : text)  (* [LookupError] or [UnicodeError] of [encode] *)
  | MacroError.           (* whatever the executed program raises *)

(** What [exec] is given: a string, or an open file. *)
Inductive payload :=
  | Source (s : text)
  | Encoded (enc : text) (b : text)
  | FileObject (path : text).

(** The two compiled patterns of [get_encoding]. *)
Inductive pattern := DeclRe | BlankRe.

Definition compiled (p : pattern) : regex :=
  match p with DeclRe => decl_re | BlankRe => blank_re end.

(** The details pane of a dialog. *)
Inductive detail :=
  | NoDetail
  | Names (l : list text)     (* the names, one per line *)
  | Traceback (e : exn).

(** What the plugin does that can be seen from outside, in order: the calls
    of [get_encoding] and of its patterns, and the calls to the host. *)
Inductive event :=
  | EvGetEncoding (s : text)
  | EvMatch (p : pattern) (i : nat) (line : text)
  | EvEncode (enc : text) (s : text)
  | EvOpen (path : text)
  | EvExec (p : payload)
  | EvMarkCurrent (current : text)
  | EvMenuClear
  | EvMenuAction (name : text) (tooltip : pyval)
  | EvBuildNames (names : list text)
  | EvCommit
  | EvQuestion (title : string) (det : detail)
  | EvInfo (title : string) (count : option nat)
  | EvError (title : string) (msg : string) (det : detail).

(** The host and the log of the events so far. *)
Record state := State {
  st_host : host;
  st_log : list event;
}.

(** ** Exceptions and state *)

(** A Python call returns a value or raises; either way the state is
    whatever it was made before. *)
Inductive res (A : Type) :=
  | Val (a : A)
  | Exc (e : exn).

Arguments Val {A} a.

Arguments Exc {A} e.

Definition M (A : Type) : Type := state -> res A * state.

Definition ret {A} (a : A) : M A := fun s => (Val a, s).

Definition bind {A B} (m : M A) (f : A -> M B) : M B :=
  fun s =>
    match m s with
    | (Val a, s') => f a s'
    | (Exc e, s') => (Exc e, s')
    end.

Definition raise {A} (e : exn) : M A := fun s => (Exc e, s).

(** [try: m except: h] *)
Definition try_except {A} (m : M A) (h : exn -> M A) : M A :=
  fun s =>
    match m s with
    | (Val a, s') => (Val a, s')
    | (Exc e, s') => h e s'
    end.

Definition emit (e : event) : M unit :=
  fun s => (Val tt, State (st_host s) (st_log s ++ [e])).

Definition get_host : M host := fun s => (Val (st_host s), s).

Definition put_host (h : host) : M unit :=
  fun s => (Val tt, State h (st_log s)).

Declare Scope py_scope.

Delimit Scope py_scope with py.

Notation "x <- m ;; k" := (bind m (fun x => k))
  (at level 100, m at next level, right associativity) : py_scope.

Notation "m ;; k" := (bind m (fun _ => k))
  (at level 100, right associativity) : py_scope.

Local Open Scope py_scope.

(** [l[i]] *)
Definition index {A} (l : list A) (i : nat) : M A :=
  match l !! i with
  | Some a => ret a
  | None => raise IndexError
  end.

(** [d[key]] *)
Definition getitem {A} (d : gmap text A) (key : text) : M A :=
  match d !! key with
  | Some a => ret a
  | None => raise (KeyError key)
  end.

(** [p.match(lines[i])] on one of the two compiled patterns. *)
Definition match_line (p : pattern) (lines : list text) (i : nat)
    : M (option (option text)) :=
  l <- index lines i ;;
  emit (EvMatch p i l) ;;
  ret (re_match (compiled p) l).

(** ** [ExecMacroAction.get_encoding] *)

Definition get_encoding (k : strkind) (t : text) : M (option text) :=
  emit (EvGetEncoding t) ;;
  let lines := splitlines k t in
  if (length lines <? 1)%nat then ret None
  else
    m <- match_line DeclRe lines 0 ;;
    match m with
    | Some g => ret g
    | None =>
        if (length lines <? 2)%nat then ret None
        else
          b <- match_line BlankRe lines 0 ;;
          match b with
          | None => ret None
          | Some _ =>
              m <- match_line DeclRe lines 1 ;;
              match m with
              | Some g => ret g
              | None => ret None
              end
          end
    end.

(** An empty store, for the examples. *)
Definition init_host : host := Host [] ∅ ∅.

Definition init : state := State init_host [].

(** The result of a computation started with an empty log. *)
Definition result {A} (m : M A) : res A := fst (m init).

Definition events {A} (m : M A) : list event := st_log (snd (m init)).

(** The text of the lines [l], each ended by LF. *)
Definition lines_of (l : list string) : text :=
  concat (map (fun s => txt s ++ [LF]) l).

(** ** The patterns in words *)

(** Every character of [p] is in the class [c]. *)
Definition all_in (c : cls) (p : text) : Prop := Forall (λ x, c x = true) p.

(** The longest prefix of [s] in the class [c], and what follows it. *)
Fixpoint run (c : cls) (s : text) : text :=
  match s with
  | x :: s' => if c x then x :: run c s' else []
  | [] => []
  end.

Fixpoint skip (c : cls) (s : text) : text :=
  match s with
  | x :: s' => if c x then skip c s' else s
  | [] => []
  end.

(** [s] does not start with a character of [c]. *)
Definition ends_run (c : cls) (s : text) : Prop :=
  match s with
  | x :: _ => c x = false
  | [] => True
  end.

(** Facts on the classes, by cases on the comparisons. *)
Ltac class_facts :=
  unfold namechar, ws3, ws2, dot, word, colon_eq, hash_cr_lf, only, chr, LF, CR in *;
  simpl in *;
  repeat match goal with
         | H : context [(?a =? ?b)] |- _ => destruct (N.eqb_spec a b)
         | H : context [(?a <=? ?b)] |- _ => destruct (N.leb_spec a b)
         | |- context [(?a =? ?b)] => destruct (N.eqb_spec a b)
         | |- context [(?a <=? ?b)] => destruct (N.leb_spec a b)
         end;
  simpl in *; try done; try lia.

(** The end of a pattern: the match object. *)
Definition k0 : text -> option text -> option (option text) := fun _ g => Some g.

(** [([-\w.]+)] and the end of the pattern. *)
Definition grp (s : text) : option (option text) :=
  rematch (Group (Plus namechar)) s None k0.

(** [coding[:=][ \t]*([-\w.]+)] and the end of the pattern. *)
Definition tailm (s : text) : option (option text) :=
  rematch (Seq (Lit "coding") (Seq (Chr colon_eq) (Seq (Star ws2)
    (Group (Plus namechar))))) s None k0.

(** The token [coding[:=][ \t]*([-\w.]+)] at the start of [s]; [name] is the
    whole run of name characters. *)
Definition token (s name : text) : Prop :=
  ∃ sep sp rest,
    s = txt "coding" ++ sep :: sp ++ name ++ rest ∧
    colon_eq sep = true ∧ all_in ws2 sp ∧
    name ≠ [] ∧ all_in namechar name ∧ ends_run namechar rest.

(** The declaration pattern in words: optional leading whitespace, a comment
    marker, any characters, [coding:] or [coding=], optional blanks, and a
    name of letters, digits, hyphen, dot and underscore. *)
Definition declaration (l : text) : Prop :=
  ∃ ws mid sep sp name rest,
    l = ws ++ chr "#" :: mid ++ txt "coding" ++ sep :: sp ++ name ++ rest ∧
    all_in ws3 ws ∧ all_in dot mid ∧ colon_eq sep = true ∧ all_in ws2 sp ∧
    name ≠ [] ∧ all_in namechar name.

(** What the group holds after a match: the name of the last token of the
    comment (the [.*] before it is greedy), taken to its end. *)
Definition captured (l name : text) : Prop :=
  ∃ ws mid s,
    l = ws ++ chr "#" :: mid ++ s ∧
    all_in ws3 ws ∧ all_in dot mid ∧ token s name ∧
    ∀ mid' s', mid ++ s = mid' ++ s' → all_in dot mid' →
               (length mid < length mid')%nat → ∀ n, ¬ token s' n.

(** [#.*coding[:=][ \t]*([-\w.]+)] and the end of the pattern. *)
Definition hashm (s : text) : option (option text) :=
  match s with
  | x :: s' => if only "#" x then star dot tailm s' else None
  | [] => None
  end.

(** A blank line, and a line that holds only a comment. *)
Definition blank (l : text) : Prop := all_in ws3 l.

Definition comment (l : text) : Prop :=
  ∃ ws rest, l = ws ++ chr "#" :: rest ∧ all_in ws3 ws.

(** [(?:[#\r\n]|$)] and the end of the pattern. *)
Definition blankm (s : text) : option (option text) :=
  rematch (Alt (Chr hash_cr_lf) Eol) s None k0.

(** No character of [l] ends a line. *)
Definition no_break (k : strkind) (l : text) : Prop :=
  all_in (λ c, negb (linebreak k c)) l.

(** What ends a line in front of [t]: CR LF, or one terminator character
    (a CR only when no LF follows). *)
Definition terminator (k : strkind) (brk t : text) : Prop :=
  brk = [CR; LF] ∨
  ∃ c, brk = [c] ∧ linebreak k c = true ∧ (c = CR → ends_run (λ d, d =? LF) t).

(** [l] is the first line of the text [t]. *)
Definition first_line (k : strkind) (t l : text) : Prop :=
  no_break k l ∧
  ((∃ brk rest, t = l ++ brk ++ rest ∧ terminator k brk rest) ∨ (t = l ∧ l ≠ [])).

(** ** The cases of [get_encoding] *)

(** The value and the pattern calls of [get_encoding] on the lines [ls]. *)
Definition detect (ls : list text) : option text * list event :=
  match ls with
  | [] => (None, [])
  | l0 :: ls' =>
      match re_match decl_re l0 with
      | Some g => (g, [EvMatch DeclRe 0 l0])
      | None =>
          match ls' with
          | [] => (None, [EvMatch DeclRe 0 l0])
          | l1 :: _ =>
              match re_match blank_re l0 with
              | None => (None, [EvMatch DeclRe 0 l0; EvMatch BlankRe 0 l0])
              | Some _ =>
                  (match re_match decl_re l1 with Some g => g | None => None end,
                   [EvMatch DeclRe 0 l0; EvMatch BlankRe 0 l0; EvMatch DeclRe 1 l1])
              end
          end
      end
  end.

(** The three texts of the specification's example. *)
Definition example_latin1 : text := lines_of ["# coding: latin-1"; "print('hi')"]%string.

Definition example_plain : text := lines_of ["print('hi')"]%string.

Definition example_second : text := lines_of [""; "# coding: utf-8"; "x=1"]%string.

(** A comment line that is itself a declaration, above another one. *)
Definition example_two_declarations : text :=
  lines_of ["# coding: latin-1"; "# coding: utf-8"]%string.

(** An event is not in a log whose entries all differ from it. *)
Ltac not_logged :=
  let H := fresh in
  intros H; repeat (apply elem_of_cons in H as [H | H]; [discriminate |]);
  by apply elem_of_nil in H.

(** ** The host's services *)

(** What the plugin calls and does not define: the codecs, [exec], the JSON
    library, the file chooser and the question dialog. [exec] runs a program
    of the user, which may change the store and the files in any way; the
    log keeps the plugin's own calls only. *)
Record env := Env {
  (* [s.encode(enc)]: [None] for an unknown codec or an unencodable text *)
  str_encode : text -> text -> option text;
  (* [exec(program, vars)]: the exception raised, if any, and the host after *)
  exec_prog : payload -> host -> option exn * host;
  (* [json.dump(d, fd, sort_keys=.., indent=..)]: the document written *)
  json_dump : bool -> nat -> registry -> text;
  (* [json.load(fd)]: [None] for a malformed document *)
  json_load : text -> option registry;
  (* [open(path, 'w')] succeeds *)
  writable : text -> bool;
  (* the files picked in [choose_files], the name given in [choose_save_file]
     and the answer to [question_dialog] *)
  choose_files : list text;
  choose_save_file : option text;
  question_dialog : list text -> bool;
}.

(** ** [ExecMacroAction] *)

(** [prefs['current_macro'] = name] and [prefs['macros'] = m] (or the update
    of that dictionary in place). *)
Definition set_current_macro (name : text) : M unit :=
  fun s =>
    let h := st_host s in
    (Val tt, State (Host name (macros h) (files h)) (st_log s)).

Definition set_macros (m : registry) : M unit :=
  fun s =>
    let h := st_host s in
    (Val tt, State (Host (current_macro h) m (files h)) (st_log s)).

(** [mark_current_macro]: the icon of the current macro's action is shown. *)
Definition mark_current_macro : M unit :=
  h <- get_host ;;
  emit (EvMarkCurrent (current_macro h)).

(** [open(path, 'r')] or [open(path, 'rU')], and what will be read. *)
Definition open_read (path : text) : M text :=
  h <- get_host ;;
  emit (EvOpen path) ;;
  match files h !! path with
  | Some content => ret content
  | None => raise (IOError path)
  end.

(** A value used as a string; [e] is raised when it is none. *)
Definition as_text (e : exn) (v : pyval) : M text :=
  match v with
  | PStr s => ret s
  | _ => raise e
  end.

(** [d.get(key)], then its truth value. *)
Definition get_truthy (d : gmap text pyval) (key : text) : bool :=
  match d !! key with
  | Some v => truthy v
  | None => false
  end.

(** [execute]: [exec] of the program with the globals, [self] and [log]. *)
Definition execute (E : env) (p : payload) : M unit :=
  emit (EvExec p) ;;
  h <- get_host ;;
  let (r, h') := exec_prog E p h in
  put_host h' ;;
  match r with
  | Some e => raise e
  | None => ret tt
  end.

(** The error dialog of [execute_macro]; its details are the log with the
    traceback. *)
Definition failed (e : exn) : event :=
  EvError "Failed to execute macro"
    "Failed to execute macro, click 'Show details' for more information."
    (Traceback e).

(** Lines 80 to 82 of [execute_macro]: [name] becomes the current macro. *)
Definition select_macro (name : text) : M unit :=
  h <- get_host ;;
  if bool_decide (name ≠ current_macro h)
  then set_current_macro name ;; mark_current_macro
  else ret tt.

(** Lines 88 to 104 of [execute_macro]: the [try] statement. *)
Definition run_macro (E : env) (macro : gmap text pyval) : M unit :=
  try_except
    (if get_truthy macro (txt "execfromfile") then
       path <- getitem macro (txt "macrofile") ;;
       path <- as_text TypeError path ;;
       _ <- open_read path ;;
       execute E (FileObject path)
     else
       v <- getitem macro (txt "program") ;;
       if truthy v then
         program <- as_text AttributeError v ;;
         encoding <- get_encoding Unicode program ;;
         match encoding with
         | Some enc =>
             emit (EvEncode enc program) ;;
             match str_encode E enc program with
             | Some b => execute E (Encoded enc b)
             | None => raise (CodecError enc)
             end
         | None => execute E (Source program)
         end
       else ret tt)
    (fun e => emit (failed e)).

(** [execute_macro]: the selection, the lookup [prefs['macros'].get(name)],
    [if not macro: return], then the [try] statement. *)
Definition execute_macro (E : env) (name : text) : M unit :=
  select_macro name ;;
  h <- get_host ;;
  match macros h !! name with
  | None => ret tt
  | Some macro =>
      if bool_decide (macro = ∅) then ret tt
      else run_macro E macro
  end.

(** [execute_current_macro] *)
Definition execute_current_macro (E : env) : M unit :=
  h <- get_host ;;
  execute_macro E (current_macro h).

(** ** [ConfigWidget]: the registry handlers *)

(** The order of [sorted] on strings: by code point, a prefix first. *)
Fixpoint text_leb (a b : text) : bool :=
  match a, b with
  | [], _ => true
  | _ :: _, [] => false
  | x :: a', y :: b' =>
      if x <? y then true else if y <? x then false else text_leb a' b'
  end.

Definition text_le (a b : text) : Prop := text_leb a b = true.

#[global] Instance text_le_dec : RelDecision text_le :=
  λ a b, decide (text_leb a b = true).

(** [sorted(d)]: the keys of a dictionary, in order. *)
Definition sorted_keys {A} (d : gmap text A) : list text :=
  merge_sort text_le (elements (dom d)).

(** [sorted(new.viewkeys() & old.viewkeys())] *)
Definition overlap {A} (new old : gmap text A) : list text :=
  merge_sort text_le (elements (dom new ∩ dom old)).

(** What the handlers read from the widgets of the form. *)
Record form := Form {
  function_name : text;       (* [function_name.currentText()] *)
  macrofile : text;           (* [macrofile.text()] *)
  fromfile_checkbox : bool;   (* [fromfile_checkbox.isChecked()] *)
  documentation : text;       (* [documentation.toPlainText()] *)
  program : text;             (* [program.toPlainText()] *)
}.

(** The record that [save_button_clicked] stores. *)
Definition record_of (f : form) : gmap text pyval :=
  list_to_map
    [(txt "name", PStr (function_name f));
     (txt "macrofile", PStr (macrofile f));
     (txt "execfromfile", PBool (fromfile_checkbox f));
     (txt "documentation", PStr (documentation f));
     (txt "program", PStr (program f))].

(** The names offered by the combo box: [sorted(prefs['macros'])]. What the
    handlers do to the widgets only is left out. *)
Definition build_function_names_box : M unit :=
  h <- get_host ;;
  emit (EvBuildNames (sorted_keys (macros h))).

(** [for a in l: f(a)] *)
Fixpoint for_each {A} (l : list A) (f : A -> M unit) : M unit :=
  match l with
  | [] => ret tt
  | a :: l' => f a ;; for_each l' f
  end.

(** [ExecMacroAction.rebuild_menu]: one action per macro, in order, with its
    documentation as tooltip; the rest concerns the host's shortcuts. *)
Definition rebuild_menu : M unit :=
  emit EvMenuClear ;;
  h <- get_host ;;
  for_each (sorted_keys (macros h))
    (fun name =>
       macro <- getitem (macros h) name ;;
       tooltip <- getitem macro (txt "documentation") ;;
       emit (EvMenuAction name tooltip)) ;;
  mark_current_macro.

(** [prefs.commit()] *)
Definition commit : M unit := emit EvCommit.

(** [save_button_clicked]: [prefs['macros'][name] = {...}], then the
    refresh of the names and of the menu, then the commit. *)
Definition save_button_clicked (f : form) : M unit :=
  let name := function_name f in
  h <- get_host ;;
  set_macros (<[name := record_of f]> (macros h)) ;;
  build_function_names_box ;;
  rebuild_menu ;;
  commit.

(** [delete_button_clicked] *)
Definition delete_button_clicked (f : form) : M unit :=
  let name := function_name f in
  h <- get_host ;;
  if bool_decide (is_Some (macros h !! name)) then
    set_macros (delete name (macros h)) ;;
    commit ;;
    build_function_names_box ;;
    rebuild_menu
  else
    emit (EvError "Exec Macro" "Macro not defined" NoDetail).

(** The error dialogs of the import and of the export. *)
Definition import_failed (e : exn) : event :=
  EvError "Failed to import macros"
    "Failed to import macros, click 'Show details' for more information."
    (Traceback e).

Definition export_failed (e : exn) : event :=
  EvError "Failed to export macros"
    "Failed to export macros, click 'Show details' for more information."
    (Traceback e).

(** The question of [import_button_clicked], with the names to overwrite as
    details. *)
Definition ask_overwrite (new old : registry) : event :=
  EvQuestion "Some macros will be overwitten" (Names (overlap new old)).

(** [import_button_clicked]; the question is asked whether or not a name
    is in both mappings. *)
Definition import_button_clicked (E : env) : M unit :=
  match choose_files E with
  | [] => ret tt
  | filename :: _ =>
      try_except
        (content <- open_read filename ;;
         new_macros <- match json_load E content with
                       | Some d => ret d
                       | None => raise ValueError
                       end ;;
         h <- get_host ;;
         let overwrite := overlap new_macros (macros h) in
         emit (ask_overwrite new_macros (macros h)) ;;
         if negb (question_dialog E overwrite) then ret tt
         else
           set_macros (new_macros ∪ macros h) ;;
           build_function_names_box ;;
           rebuild_menu ;;
           commit ;;
           emit (EvInfo "Macros imported" (Some (size new_macros))))
        (fun e => emit (import_failed e))
  end.

(** [open(path, 'w')], then the write of [content]. *)
Definition write_file (E : env) (path content : text) : M unit :=
  emit (EvOpen path) ;;
  if writable E path then
    fun s =>
      let h := st_host s in
      (Val tt, State (Host (current_macro h) (macros h) (<[path := content]> (files h)))
                 (st_log s))
  else raise (IOError path).

(** [export_button_clicked] *)
Definition export_button_clicked (E : env) : M unit :=
  match choose_save_file E with
  | None | Some [] => ret tt
  | Some filename =>
      try_except
        (h <- get_host ;;
         write_file E filename (json_dump E true 4 (macros h)) ;;
         emit (EvInfo "Macros exported" (Some (size (macros h)))))
        (fun e => emit (export_failed e))
  end.

(** ** The cases of [execute_macro] *)

(** The host once [name] is the current macro. *)
Definition select (name : text) (h : host) : host :=
  Host name (macros h) (files h).

(** What selecting [name] logs: the menu is marked again when [name] was not
    the current macro. *)
Definition marks (name : text) (h : host) : list event :=
  if bool_decide (name ≠ current_macro h) then [EvMarkCurrent name] else [].

(** [exec] of [p] inside the [try] of [execute_macro], from the host [h]
    with the log [log]. *)
Definition guarded_exec (E : env) (p : payload) (h : host) (log : list event)
    : res unit * state :=
  let (r, h') := exec_prog E p h in
  (Val tt,
   State h' (log ++ EvExec p :: match r with Some e => [failed e] | None => [] end)).

(** A host of no effect, for the examples. *)
Definition quiet_env : env :=
  Env (fun _ s => Some s) (fun _ h => (None, h)) (fun _ _ _ => []) (fun _ => None)
      (fun _ => true) [] None (fun _ => true).

(** Unfold the operations of [M]. *)
Ltac run_m :=
  unfold mark_current_macro, getitem, as_text, open_read;
  unfold bind, ret, raise, emit, get_host, put_host, set_current_macro,
    set_macros, try_except;
  simpl.

Arguments get_encoding : simpl never.

(** Equality of two logs up to the grouping of [++]. *)
Ltac log_eq :=
  simpl; rewrite <- ?(assoc_L (++)); simpl; rewrite <- ?(assoc_L (++)); try done.

(** [m] only adds to the log. *)
Definition appends {A} (m : M A) : Prop :=
  ∀ s, ∃ l, st_log (snd (m s)) = st_log s ++ l.

(** [m] leaves the host as it is. *)
Definition keeps_host {A} (m : M A) : Prop :=
  ∀ s, st_host (snd (m s)) = st_host s.

(** ** Example stores *)

(** A macro run from the file [f.py], whose first line declares latin-1. *)
Definition file_macro : gmap text pyval :=
  list_to_map
    [(txt "name", PStr (txt "m"));
     (txt "macrofile", PStr (txt "f.py"));
     (txt "execfromfile", PBool true);
     (txt "documentation", PStr []);
     (txt "program", PStr [])].

Definition file_state : state :=
  State (Host (txt "Sample Dialog") {[ txt "m" := file_macro ]}
           {[ txt "f.py" := example_latin1 ]}) [].

(** The same macro with its source inline. *)
Definition inline_macro : gmap text pyval :=
  list_to_map
    [(txt "name", PStr (txt "m"));
     (txt "macrofile", PStr []);
     (txt "execfromfile", PBool false);
     (txt "documentation", PStr []);
     (txt "program", PStr example_latin1)].

Definition inline_state : state :=
  State (Host (txt "Sample Dialog") {[ txt "m" := inline_macro ]} ∅) [].

(** A record with an empty program and no file flag. *)
Definition empty_macro : gmap text pyval :=
  list_to_map
    [(txt "name", PStr (txt "m"));
     (txt "macrofile", PStr []);
     (txt "execfromfile", PBool false);
     (txt "documentation", PStr []);
     (txt "program", PStr [])].

Definition empty_state : state :=
  State (Host (txt "m") {[ txt "m" := empty_macro ]} ∅) [].

(** ** The cases of the registry handlers *)

(** A run of [save_button_clicked], one form after the other. *)
Definition save_all (fs : list form) (s : state) : state :=
  foldl (λ s f, snd (save_button_clicked f s)) s fs.

(** The form filled for a macro [m]. *)
Definition form_m : form :=
  Form (txt "m") [] false (txt "says hi") (txt "print('hi')").

(** What [import_button_clicked] does once the registry is merged. *)
Definition after_merge (E : env) (new : registry) : M unit :=
  try_except
    (build_function_names_box ;; rebuild_menu ;; commit ;;
     emit (EvInfo "Macros imported" (Some (size new))))
    (fun e => emit (import_failed e)).

#[global] Instance pyval_countable : Countable pyval.
Proof.
  refine (inj_countable'
            (λ v, match v with
                  | PNone => inl (inl tt)
                  | PBool b => inl (inr b)
                  | PInt z => inr (inl z)
                  | PStr s => inr (inr s)
                  end)
            (λ x, match x with
                  | inl (inl _) => PNone
                  | inl (inr b) => PBool b
                  | inr (inl z) => PInt z
                  | inr (inr s) => PStr s
                  end) _).
  by intros [].
Defined.

(** A host whose JSON documents are the codes of the registries, for the
    examples: [json_load] reads back what [json_dump] wrote. *)
Definition codec_env (answer : bool) : env :=
  Env (fun _ s => Some s) (fun _ h => (None, h))
      (fun _ _ m => [Npos (encode m)])
      (fun t => match t with [Npos p] => decode p | _ => None end)
      (fun _ => true)
      [txt "macros.json"] (Some (txt "macros.json")) (fun _ => answer).

(** A registry with the macro [m], and a file that holds another [m]. *)
Definition import_state : state :=
  State (Host (txt "m") {[ txt "m" := inline_macro ]}
           {[ txt "macros.json" :=
                json_dump (codec_env true) true 4 {[ txt "m" := empty_macro ]} ]}) [].

(** The store with an empty registry: the target of an import. *)
Definition emptied (s : state) : state :=
  State (Host (current_macro (st_host s)) ∅ (files (st_host s))) (st_log s).

(** ** Further definitions *)

(** The text [#], VT, [ coding: latin-1]: one line for a byte string, two
    for a unicode string. *)
Definition example_vt : text := txt "#" ++ [11] ++ txt " coding: latin-1".

(** The events that are a call of [exec], and those that are an error
    dialog. *)
Definition is_exec (e : event) : bool :=
  match e with EvExec _ => true | _ => false end.

Definition is_error (e : event) : bool :=
  match e with EvError _ _ _ => true | _ => false end.

(** The events before any [exec] and any dialog. *)
Definition quiet (l : list event) : Prop :=
  Forall (λ e, is_exec e = false ∧ is_error e = false) l.


(** Every record of the registry has a [documentation] field. *)
Definition documented (m : registry) : Prop :=
  ∀ name r, m !! name = Some r → is_Some (r !! txt "documentation").

(** The documentation of the macro [name], the tooltip of its action. *)
Definition tooltip_of (m : registry) (name : text) : pyval :=
  default PNone (m !! name ≫= λ r, r !! txt "documentation").

(** The actions of the menu of the registry [m]. *)
Definition menu_actions (m : registry) : list event :=
  map (λ name, EvMenuAction name (tooltip_of m name)) (sorted_keys m).

Definition is_menu_action (e : event) : bool :=
  match e with EvMenuAction _ _ => true | _ => false end.

(** One turn of the loop of [rebuild_menu]: the action of the macro [name]
    with its documentation as tooltip. *)
Definition add_action (m : registry) (name : text) : M unit :=
  macro <- getitem m name ;;
  tooltip <- getitem macro (txt "documentation") ;;
  emit (EvMenuAction name tooltip).

(** A record without documentation, as an imported file can hold. *)
Definition bare_macro : gmap text pyval :=
  {[ txt "program" := PStr (txt "print('hi')") ]}.

Definition bare_state : state :=
  State (Host (txt "b") {[ txt "b" := bare_macro ]} ∅) [].

(** A registry with the macro [m], and a file that holds the record [b]
    without documentation. *)
Definition bare_import_state : state :=
  State (Host (txt "m") {[ txt "m" := inline_macro ]}
           {[ txt "macros.json" :=
                json_dump (codec_env true) true 4 {[ txt "b" := bare_macro ]} ]}) [].

(** ** [ConfigWidget]: the form *)

(** The save and the delete button. *)
Record buttons := Buttons {
  save_enabled : bool;
  delete_enabled : bool;
}.

(** [function_name_edited]: the buttons for the name typed in the combo box.
    [prefs['macros'].get(txt)] is tested for its truth, so an empty record
    counts as none. *)
Definition function_name_edited (m : registry) (name : text) : buttons :=
  match name with
  | [] => Buttons false false
  | _ =>
      match m !! name with
      | Some r => if bool_decide (r = ∅) then Buttons true false else Buttons false true
      | None => Buttons true false
      end
  end.

(** What the handlers of the form call and do not define: the conversions
    of PyQt, the codecs on byte strings and the traceback. *)
Record toolkit := Toolkit {
  (* [setText(v)] and [setPlainText(v)]: the text shown, [None] when the
     call raises [TypeError] *)
  shown : pyval -> option text;
  (* [setChecked(v)]: the state set, [None] when the call raises *)
  checked : pyval -> option bool;
  (* [setPlainText(b)] for a byte string [b] *)
  shown_bytes : text -> option text;
  (* [b.decode(enc)]: [None] for an unknown codec or undecodable bytes *)
  str_decode : text -> text -> option text;
  (* [fd.write(u)] for a unicode string [u]: the bytes that the default
     encoding gives, [None] when it fails *)
  implicit_encode : text -> option text;
  default_encoding : text;
  (* [traceback.extract_tb]: the file name and the line of each frame *)
  frames : exn -> list (text * nat);
}.

(** The form and the store. *)
Record window := Window {
  w_form : form;
  w_state : state;
}.

(** A handler of the form returns a value or raises, and leaves the form and
    the store as it made them. *)
Definition W (A : Type) : Type := window -> res A * window.

Definition wret {A} (a : A) : W A := fun w => (Val a, w).

Definition wbind {A B} (m : W A) (k : A -> W B) : W B :=
  fun w =>
    match m w with
    | (Val a, w') => k a w'
    | (Exc e, w') => (Exc e, w')
    end.

Definition wraise {A} (e : exn) : W A := fun w => (Exc e, w).

Definition wtry {A} (m : W A) (h : exn -> W A) : W A :=
  fun w =>
    match m w with
    | (Val a, w') => (Val a, w')
    | (Exc e, w') => h e w'
    end.

(** A computation on the store, run from a handler of the form. *)
Definition lift {A} (m : M A) : W A :=
  fun w => let (r, s) := m (w_state w) in (r, Window (w_form w) s).

Definition get_form : W form := fun w => (Val (w_form w), w).

Definition put_form (f : form) : W unit := fun w => (Val tt, Window f (w_state w)).

Declare Scope ui_scope.

Delimit Scope ui_scope with ui.

Notation "x <- m ;; k" := (wbind m (fun x => k))
  (at level 100, m at next level, right associativity) : ui_scope.

Notation "m ;; k" := (wbind m (fun _ => k))
  (at level 100, right associativity) : ui_scope.

(** [self.program.setPlainText(p)] and the like. *)
Definition with_program (p : text) (f : form) : form :=
  Form (function_name f) (macrofile f) (fromfile_checkbox f) (documentation f) p.

Definition with_macrofile (p : text) (f : form) : form :=
  Form (function_name f) p (fromfile_checkbox f) (documentation f) (program f).

Definition with_checkbox (b : bool) (f : form) : form :=
  Form (function_name f) (macrofile f) b (documentation f) (program f).

Definition with_documentation (d : text) (f : form) : form :=
  Form (function_name f) (macrofile f) (fromfile_checkbox f) d (program f).

Definition update (g : form -> form) : W unit :=
  (f <- get_form ;; put_form (g f))%ui.

(** A value handed to [setText] or [setPlainText], and to [setChecked]. *)
Definition set_text (Q : toolkit) (g : text -> form -> form) (v : pyval) : W unit :=
  match shown Q v with
  | Some t => update (g t)
  | None => wraise TypeError
  end.

Definition set_checked (Q : toolkit) (v : pyval) : W unit :=
  match checked Q v with
  | Some b => update (with_checkbox b)
  | None => wraise TypeError
  end.

(** [function_index_changed]: the fields of the form are filled from the
    record of the name chosen in the combo box; the result is the state of
    the two buttons. *)
Definition function_index_changed (Q : toolkit) (name : text) : W buttons :=
  (match name with
   | [] =>
       update (with_program []) ;;
       update (with_macrofile []) ;;
       update (with_checkbox false) ;;
       update (with_documentation []) ;;
       wret (Buttons false false)
   | _ =>
       h <- lift get_host ;;
       func <- lift (getitem (macros h) name) ;;
       set_text Q with_program (default PNone (func !! txt "program")) ;;
       set_text Q with_macrofile (default PNone (func !! txt "macrofile")) ;;
       set_checked Q (default (PBool false) (func !! txt "execfromfile")) ;;
       set_text Q with_documentation (default PNone (func !! txt "documentation")) ;;
       wret (Buttons false true)
   end)%ui.

(** [filebrowse_button_clicked]: the file chosen, which becomes the text of
    [macrofile]; [None] when none is chosen. *)
Definition filebrowse_button_clicked (E : env) : W (option text) :=
  (match choose_files E with
   | [] => wret None
   | filename :: _ => update (with_macrofile filename) ;; wret (Some filename)
   end)%ui.

(** The dialogs of the two file handlers. *)
Definition load_failed (e : exn) : event :=
  EvError "Failed to load macro"
    "Failed to load macro, click 'Show details' for more information."
    (Traceback e).

Definition save_failed (e : exn) : event :=
  EvError "Failed to save macro"
    "Failed to save macro, click 'Show details' for more information."
    (Traceback e).

(** [load_file_button_clicked]: the file named by [macrofile], or chosen
    when there is no name, is read as a byte string, decoded when it
    declares an encoding, and becomes the text of the editor. *)
Definition load_file_button_clicked (E : env) (Q : toolkit) : W unit :=
  (f <- get_form ;;
   filename <- match macrofile f with
               | [] => filebrowse_button_clicked E
               | name => wret (Some name)
               end ;;
   match filename with
   | None | Some [] => wret tt
   | Some _ =>
       wtry
         (f <- get_form ;;
          content <- lift (open_read (macrofile f)) ;;
          encoding <- lift (get_encoding Bytes content) ;;
          match encoding with
          | Some enc =>
              match str_decode Q enc content with
              | Some u => update (with_program u)
              | None => wraise (CodecError enc)
              end
          | None =>
              match shown_bytes Q content with
              | Some u => update (with_program u)
              | None => wraise TypeError
              end
          end ;;
          lift (emit (EvInfo "Macro loaded from file" None)))
         (fun e => lift (emit (load_failed e)))
   end)%ui.

(** [open(path, 'w')]: an existing file is emptied at once. *)
Definition set_file (path content : text) : M unit :=
  fun s =>
    let h := st_host s in
    (Val tt, State (Host (current_macro h) (macros h) (<[path := content]> (files h)))
               (st_log s)).

Definition open_write (E : env) (path : text) : M unit :=
  emit (EvOpen path) ;;
  if writable E path then set_file path [] else raise (IOError path).

(** [save_file_button_clicked]: the text of the editor is written to the
    file named by [macrofile], or chosen when there is no name, encoded as
    it declares or else by the default encoding. *)
Definition save_file_button_clicked (E : env) (Q : toolkit) : W unit :=
  (f <- get_form ;;
   filename <- match macrofile f with
               | [] =>
                   match choose_save_file E with
                   | Some name => update (with_macrofile name) ;; wret (Some name)
                   | None => set_text Q with_macrofile PNone ;; wret None
                   end
               | name => wret (Some name)
               end ;;
   match filename with
   | None | Some [] => wret tt
   | Some filename =>
       wtry
         (f <- get_form ;;
          encoding <- lift (get_encoding Unicode (program f)) ;;
          match encoding with
          | Some enc =>
              lift (emit (EvEncode enc (program f))) ;;
              match str_encode E enc (program f) with
              | Some b =>
                  lift (open_write E filename) ;;
                  lift (set_file filename b)
              | None => wraise (CodecError enc)
              end
          | None =>
              lift (open_write E filename) ;;
              match implicit_encode Q (program f) with
              | Some b => lift (set_file filename b)
              | None => wraise (CodecError (default_encoding Q))
              end
          end ;;
          lift (emit (EvInfo "Macro saved to file" None)))
         (fun e => lift (emit (save_failed e)))
   end)%ui.

(** The loop over the traceback in [execute_button_clicked]: the line of the
    last frame of the executed string, [0] when there is none. *)
Definition error_line (tb : list (text * nat)) : nat :=
  foldl (λ lineno frame, if bool_decide (frame.1 = txt "<string>") then frame.2 else lineno)
    0%nat tb.

(** The end of [execute_button_clicked] after the exception [e]:
    [if 0 < lineno: self.program.go_to_line(lineno)]. *)
Definition go_to_line (Q : toolkit) (e : exn) : option nat :=
  let lineno := error_line (frames Q e) in
  if bool_decide (0 < lineno)%nat then Some lineno else None.

(** [execute_button_clicked]: the text of the editor, loaded again from the
    file when the checkbox is set, is run as [execute_macro] runs a program.
    The result is the line the editor goes to, if any. *)
Definition execute_button_clicked (E : env) (Q : toolkit) : W (option nat) :=
  wtry
    (f <- get_form ;;
     (if fromfile_checkbox f then load_file_button_clicked E Q else wret tt) ;;
     f <- get_form ;;
     encoding <- lift (get_encoding Unicode (program f)) ;;
     match encoding with
     | Some enc =>
         lift (emit (EvEncode enc (program f))) ;;
         match str_encode E enc (program f) with
         | Some b => lift (execute E (Encoded enc b))
         | None => wraise (CodecError enc)
         end
     | None => lift (execute E (Source (program f)))
     end ;;
     wret None)%ui
    (fun e => wret (go_to_line Q e)).

(** PyQt5 takes a string where a string is expected and a number or a
    truth value where a truth value is; the codecs are those of the
    examples. No frame of a traceback is known. *)
Definition pyqt5 : toolkit :=
  Toolkit (fun v => match v with PStr s => Some s | _ => None end)
          (fun v => match v with
                    | PBool b => Some b
                    | PInt z => Some (negb (z =? 0)%Z)
                    | _ => None
                    end)
          (fun b => Some b) (fun _ b => Some b) (fun u => Some u) (txt "utf-8")
          (fun _ => []).

(** [prefs.defaults['macros']] *)
Definition default_macros : registry :=
  {[ txt "Sample Dialog" :=
       list_to_map
         [(txt "name", PStr (txt "Sample Dialog"));
          (txt "documentation", PStr (txt "Macro to display simple dialog."));
          (txt "program",
           PStr (lines_of
                   ["from calibre.gui2 import info_dialog";
                    "result = info_dialog(self.gui, 'Greetings',";
                    "    'Hello World. Welcome to ExecMacro Plugin.', show=True)"]%string));
          (txt "filename", PStr [])] ]}.

(** The form as it is when nothing is typed, over the default registry. *)
Definition blank_form : form := Form [] [] false [] [].

Definition default_window : window :=
  Window blank_form (State (Host (txt "Sample Dialog") default_macros ∅) []).

(** ** The cases of the form handlers *)

(** The files once [content] is written to [path]. *)
Definition with_file (path content : text) (h : host) : host :=
  Host (current_macro h) (macros h) (<[path := content]> (files h)).

(** [exec] of [p] inside the [try] of [execute_button_clicked], from the
    host [h] with the log [log]. *)
Definition button_exec (E : env) (Q : toolkit) (p : payload) (f : form) (h : host)
    (log : list event) : res (option nat) * window :=
  let (r, h') := exec_prog E p h in
  (Val (match r with Some e => go_to_line Q e | None => None end),
   Window f (State h' (log ++ [EvExec p]))).

(** [execute_button_clicked] from the text of the editor on. *)
Definition run_text (E : env) (Q : toolkit) (f : form) (s : state)
    : res (option nat) * window :=
  let p := program f in
  let log1 := st_log s ++ EvGetEncoding p :: snd (detect (splitlines Unicode p)) in
  match fst (detect (splitlines Unicode p)) with
  | Some enc =>
      match str_encode E enc p with
      | Some b =>
          button_exec E Q (Encoded enc b) f (st_host s) (log1 ++ [EvEncode enc p])
      | None =>
          (Val (go_to_line Q (CodecError enc)),
           Window f (State (st_host s) (log1 ++ [EvEncode enc p])))
      end
  | None => button_exec E Q (Source p) f (st_host s) log1
  end.

(** A form whose program is run from the file [f.py], and a store where
    that file cannot be read. *)
Definition file_form : form :=
  Form (txt "m") (txt "f.py") true [] (txt "print('hi')").

(** A host whose [exec] raises, and a toolkit whose traceback has two
    frames in the executed string, for the examples. *)
Definition failing_env : env :=
  Env (fun _ s => Some s) (fun _ h => (Some MacroError, h)) (fun _ _ _ => [])
      (fun _ => None) (fun _ => true) [] None (fun _ => true).

Definition traced : toolkit :=
  Toolkit (fun v => match v with PStr s => Some s | _ => None end)
          (fun v => match v with PBool b => Some b | _ => None end)
          (fun b => Some b) (fun _ b => Some b) (fun u => Some u) (txt "utf-8")
          (fun _ => [(txt "config.py", 188%nat); (txt "action.py", 113%nat);
                     (txt "<string>", 2%nat); (txt "<string>", 7%nat)]).

(** * Properties *)

(** ** The lines and the patterns on examples *)

Example splitlines_ex1 :
  splitlines Unicode (lines_of ["a"; "b"; ""; "c"]%string)
  = [txt "a"; txt "b"; txt ""; txt "c"].
Proof. reflexivity. Qed.

Example splitlines_ex2 :
  splitlines Bytes (txt "a" ++ [CR; LF] ++ txt "b" ++ [CR] ++ [12] ++ txt "c")
  = [txt "a"; txt "b"; 12 :: txt "c"].
Proof. reflexivity. Qed.

Example decl_ex1 :
  re_match decl_re (txt "  # -*- coding: utf-8 -*-") = Some (Some (txt "utf-8")).
Proof. reflexivity. Qed.

Example decl_ex2 :
  re_match decl_re (txt "# coding: a coding=b.c rest") = Some (Some (txt "b.c")).
Proof. reflexivity. Qed.

Example decl_ex3 : re_match decl_re (txt "x = 1 # coding: a") = None.
Proof. reflexivity. Qed.

Example blank_ex1 : re_match blank_re (txt "   ") = Some None.
Proof. reflexivity. Qed.

Example get_encoding_ex1 :
  result (get_encoding Unicode (lines_of ["# coding: latin-1"; "print('hi')"]%string))
  = Val (Some (txt "latin-1")).
Proof. reflexivity. Qed.

(** ** The matcher, declaratively *)

Lemma all_in_nil c : all_in c [].
Proof. constructor. Qed.

Lemma all_in_cons c x p : all_in c (x :: p) ↔ c x = true ∧ all_in c p.
Proof. unfold all_in. by rewrite Forall_cons. Qed.

Lemma all_in_app c p q : all_in c (p ++ q) ↔ all_in c p ∧ all_in c q.
Proof. unfold all_in. by rewrite Forall_app. Qed.

Section Star.

Context {R : Type} (c : cls) (k : text -> option R).

(** [c*] fails exactly when what follows fails after every run of [c]. *)
Lemma star_none s :
  star c k s = None ↔ ∀ p q, s = p ++ q → all_in c p → k q = None.
Proof.
  induction s as [|x s IH]; simpl.
  - split.
    + intros H p q E _. symmetry in E. apply app_eq_nil in E as [-> ->]. done.
    + intros H. apply (H [] []); [done | apply all_in_nil].
  - destruct (c x) eqn:Hx.
    + destruct (star c k s) as [r|] eqn:Hs.
      * split; [done |]. intros H.
        assert (Some r = None) as E; [| done].
        apply IH. intros p q -> Hp. apply (H (x :: p) q); [done |].
        by apply all_in_cons.
      * split.
        -- intros Hk p q E Hp. destruct p as [|y p]; simpl in E.
           ++ by subst q.
           ++ injection E as -> ->. apply all_in_cons in Hp as [_ Hp].
              destruct IH as [IH _]. by apply (IH eq_refl p q).
        -- intros H. apply (H [] (x :: s)); [done | apply all_in_nil].
    + split.
      * intros Hk p q E Hp. destruct p as [|y p]; simpl in E.
        -- by subst q.
        -- injection E as -> ->. apply all_in_cons in Hp as [Hy _]. congruence.
      * intros H. apply (H [] (x :: s)); [done | apply all_in_nil].
Qed.

(** [c*] is greedy: it succeeds with the result that follows the longest
    run of [c] after which the rest of the pattern matches. *)
Lemma star_some s r :
  star c k s = Some r ↔
  ∃ p q, s = p ++ q ∧ all_in c p ∧ k q = Some r ∧
         ∀ p' q', s = p' ++ q' → all_in c p' →
                  (length p < length p')%nat → k q' = None.
Proof.
  revert r. induction s as [|x s IH]; intros r; simpl.
  - split.
    + intros H. exists [], []. repeat split; [apply all_in_nil | done |].
      intros p' q' E _ Hl. symmetry in E. apply app_eq_nil in E as [-> ->].
      simpl in Hl. lia.
    + intros (p & q & E & _ & Hk & _). symmetry in E.
      apply app_eq_nil in E as [-> ->]. done.
  - destruct (c x) eqn:Hx.
    + destruct (star c k s) as [r'|] eqn:Hs.
      * split.
        -- intros [= ->]. destruct (IH r) as [(p & q & -> & Hp & Hk & Hmax) _]; [done |].
           exists (x :: p), q. repeat split; [by apply all_in_cons | done |].
           intros p' q' E Hp' Hl. destruct p' as [|y p']; simpl in *; [lia |].
           injection E as -> E. apply all_in_cons in Hp' as [_ Hp'].
           apply (Hmax p' q'); [done | done | lia].
        -- intros (p & q & E & Hp & Hk & Hmax). destruct p as [|y p]; simpl in E.
           ++ subst q. assert (star c k s = None) as E; [| congruence].
              apply star_none. intros p' q' -> Hp'.
              apply (Hmax (x :: p') q'); [done | by apply all_in_cons | simpl; lia].
           ++ injection E as -> ->. apply all_in_cons in Hp as [_ Hp].
              apply IH. exists p, q.
              repeat split; [done | done |].
              intros p' q' E Hp' Hl.
              apply (Hmax (y :: p') q'); [by rewrite E | by apply all_in_cons | simpl; lia].
      * split.
        -- intros Hk. exists [], (x :: s). repeat split; [apply all_in_nil | done |].
           intros p' q' E Hp' Hl. destruct p' as [|y p']; simpl in *; [lia |].
           injection E as -> ->. apply all_in_cons in Hp' as [_ Hp'].
           destruct (star_none (p' ++ q')) as [Hn _]. by apply (Hn Hs p' q').
        -- intros (p & q & E & Hp & Hk & Hmax). destruct p as [|y p]; simpl in E.
           ++ by subst q.
           ++ injection E as -> ->. apply all_in_cons in Hp as [_ Hp].
              destruct (star_none (p ++ q)) as [Hn _].
              rewrite (Hn Hs p q) in Hk; done.
    + split.
      * intros Hk. exists [], (x :: s). repeat split; [apply all_in_nil | done |].
        intros p' q' E Hp' Hl. destruct p' as [|y p']; simpl in *; [lia |].
        injection E as -> ->. apply all_in_cons in Hp' as [Hy _]. congruence.
      * intros (p & q & E & Hp & Hk & Hmax). destruct p as [|y p]; simpl in E.
        -- by subst q.
        -- injection E as -> ->. apply all_in_cons in Hp as [Hy _]. congruence.
Qed.

End Star.

(** *** Runs of a class *)

Lemma run_skip c s : run c s ++ skip c s = s.
Proof. induction s as [|x s IH]; simpl; [done |]. destruct (c x); simpl; by f_equal. Qed.

Lemma all_in_run c s : all_in c (run c s).
Proof.
  induction s as [|x s IH]; simpl; [apply all_in_nil |].
  destruct (c x) eqn:Hx; [by apply all_in_cons | apply all_in_nil].
Qed.

Lemma ends_run_skip c s : ends_run c (skip c s).
Proof. induction s as [|x s IH]; simpl; [done |]. by destruct (c x) eqn:Hx. Qed.

Lemma run_app c p q : all_in c p → ends_run c q → run c (p ++ q) = p.
Proof.
  induction p as [|x p IH]; simpl; intros Hp Hq.
  - destruct q as [|y q]; simpl in *; [done | by rewrite Hq].
  - apply all_in_cons in Hp as [-> Hp]. f_equal. by apply IH.
Qed.

Lemma skip_app c p q : all_in c p → ends_run c q → skip c (p ++ q) = q.
Proof.
  induction p as [|x p IH]; simpl; intros Hp Hq.
  - destruct q as [|y q]; simpl in *; [done | by rewrite Hq].
  - apply all_in_cons in Hp as [-> Hp]. by apply IH.
Qed.

Lemma length_skip c s : (length (skip c s) ≤ length s)%nat.
Proof. induction s as [|x s IH]; simpl; [lia |]. destruct (c x); simpl; lia. Qed.

Lemma take_run c s : take (length s - length (skip c s)) s = run c s.
Proof.
  induction s as [|x s IH]; [done |].
  pose proof (length_skip c s) as Hl. cbn [run skip].
  destruct (c x).
  - cbn [length]. rewrite Nat.sub_succ_l by done. cbn [take]. by f_equal.
  - by rewrite Nat.sub_diag.
Qed.

(** When what follows [c*] cannot start with a character of [c], nothing is
    gained by backtracking: [c*] takes the whole run. *)
Lemma star_skip {R} c (k : text -> option R) s :
  (∀ x t, c x = true → k (x :: t) = None) → star c k s = k (skip c s).
Proof.
  intros Hk. induction s as [|x s IH]; simpl; [done |].
  destruct (c x) eqn:Hx; [| done].
  rewrite IH. destruct (k (skip c s)); [done |]. by apply Hk.
Qed.

(** When what follows [c*] matches after the whole run, that is the match. *)
Lemma star_skip_some {R} c (k : text -> option R) s r :
  k (skip c s) = Some r → star c k s = Some r.
Proof.
  induction s as [|x s IH]; simpl; [done |].
  destruct (c x) eqn:Hx; [| done]. intros H. by rewrite (IH H).
Qed.

(** *** The two patterns, step by step *)

Lemma namechar_not_ws2 x : namechar x = true → ws2 x = false.
Proof. intros H. class_facts. Qed.

Lemma ws3_not_hash x : ws3 x = true → only "#" x = false.
Proof. intros H. class_facts. Qed.

Lemma ws3_not_hash_cr_lf x : ws3 x = true → hash_cr_lf x = false ∧ x ≠ LF.
Proof. intros H. class_facts. Qed.

Lemma grp_eq s :
  grp s = match run namechar s with
          | [] => None
          | name => Some (Some name)
          end.
Proof.
  unfold grp. simpl. destruct s as [|x s]; simpl; [done |].
  destruct (namechar x) eqn:Hx; [| done].
  apply star_skip_some. unfold k0. do 2 f_equal.
  pose proof (take_run namechar (x :: s)) as E. cbn [run skip] in E.
  by rewrite Hx in E.
Qed.

Lemma only_true a x : only a x = true ↔ x = chr a.
Proof. unfold only. apply N.eqb_eq. Qed.

(** A literal matches exactly itself. *)
Lemma rematch_lit {R} w s g (k : text -> option text -> option R) r :
  rematch (Lit w) s g k = Some r ↔ ∃ s', s = txt w ++ s' ∧ k s' g = Some r.
Proof.
  revert s. induction w as [|a w IH]; intros s.
  - simpl. rewrite (star_skip _ _ s) by done.
    assert (skip (λ _, false) s = s) as -> by (by destruct s).
    split; [intros H; by exists s | by intros (s' & -> & H)].
  - assert (rematch (Lit (String a w)) s g k =
            match s with
            | x :: s' => if only a x then rematch (Lit w) s' g k else None
            | [] => None
            end) as ->.
    { destruct w; [| done]. simpl. destruct s as [|x s]; [done |].
      destruct (only a x); [| done]. rewrite (star_skip _ _ s) by done.
      by destruct s. }
    change (txt (String a w)) with (chr a :: txt w).
    destruct s as [|x s].
    + split; [done | by intros (s' & ? & _)].
    + destruct (only a x) eqn:Hx.
      * apply only_true in Hx as ->. rewrite IH. split.
        -- intros (s' & -> & H). by exists s'.
        -- intros (s' & [= ->] & H). by exists s'.
      * split; [done |]. intros (s' & [= -> ->] & _).
        assert (only a (chr a) = true) by by apply only_true. congruence.
Qed.

Lemma grp_ws2 x t : ws2 x = true → grp (x :: t) = None.
Proof.
  intros Hx. rewrite grp_eq. simpl.
  destruct (namechar x) eqn:Hn; [| done].
  apply namechar_not_ws2 in Hn. congruence.
Qed.

Lemma ends_run_name name rest :
  name ≠ [] → all_in namechar name → ends_run ws2 (name ++ rest).
Proof.
  destruct name as [|x name]; [done |]. intros _ [Hx _]%all_in_cons.
  by apply namechar_not_ws2.
Qed.

Lemma tailm_token s g :
  tailm s = Some g ↔ ∃ name, g = Some name ∧ token s name.
Proof.
  unfold tailm.
  change (rematch (Seq (Lit "coding") ?r) s None k0)
    with (rematch (Lit "coding") s None (λ s1 g1, rematch r s1 g1 k0)).
  rewrite rematch_lit. split.
  - intros (s1 & -> & H). destruct s1 as [|sep s2]; [done |].
    cbn [rematch] in H. destruct (colon_eq sep) eqn:Hsep; [| done].
    change (star ws2 grp s2 = Some g) in H.
    rewrite star_skip in H by apply grp_ws2. rewrite grp_eq in H.
    destruct (run namechar (skip ws2 s2)) as [|x name] eqn:Hrun; [done |].
    injection H as <-. exists (x :: name). split; [done |].
    exists sep, (run ws2 s2), (skip namechar (skip ws2 s2)).
    rewrite <- Hrun, !run_skip. repeat split.
    + done.
    + apply all_in_run.
    + by rewrite Hrun.
    + apply all_in_run.
    + apply ends_run_skip.
  - intros (name & -> & sep & sp & rest & -> & Hsep & Hsp & Hne & Hname & Hrest).
    exists (sep :: sp ++ name ++ rest). split; [done |].
    cbn [rematch]. rewrite Hsep.
    change (star ws2 grp (sp ++ name ++ rest) = Some (Some name)).
    rewrite star_skip by apply grp_ws2.
    rewrite skip_app by eauto using ends_run_name.
    rewrite grp_eq, run_app by done. by destruct name.
Qed.

Lemma decl_re_eq l : re_match decl_re l = hashm (skip ws3 l).
Proof.
  change (re_match decl_re l) with (star ws3 hashm l).
  apply star_skip. intros x t Hx. simpl. by rewrite ws3_not_hash.
Qed.

Lemma tailm_none s : tailm s = None ↔ ∀ n, ¬ token s n.
Proof.
  split.
  - intros H n Hn. assert (tailm s = Some (Some n)) by (apply tailm_token; eauto).
    congruence.
  - intros H. destruct (tailm s) as [g|] eqn:E; [| done].
    apply tailm_token in E as (n & _ & Hn). by destruct (H n).
Qed.

Lemma ends_run_hash t : ends_run ws3 (chr "#" :: t).
Proof. reflexivity. Qed.

(** A match of the declaration pattern captures the name described by
    [captured], and only that one. *)
Lemma decl_re_captured l g :
  re_match decl_re l = Some g ↔ ∃ name, g = Some name ∧ captured l name.
Proof.
  rewrite decl_re_eq. split.
  - intros H. destruct (skip ws3 l) as [|x s2] eqn:Hskip; [done |].
    simpl in H. destruct (only "#" x) eqn:Hx; [| done].
    apply only_true in Hx as ->.
    apply star_some in H as (mid & s & -> & Hmid & Hs & Hmax).
    apply tailm_token in Hs as (name & -> & Htok).
    exists name. split; [done |]. exists (run ws3 l), mid, s.
    rewrite <- Hskip, run_skip. repeat split; [apply all_in_run | done | done |].
    intros mid' s' E Hmid' Hl. apply tailm_none. eauto.
  - intros (name & -> & ws & mid & s & -> & Hws & Hmid & Htok & Hmax).
    rewrite skip_app by (done || apply ends_run_hash). simpl.
    apply star_some. exists mid, s. repeat split; [done | |].
    + apply tailm_token. eauto.
    + intros mid' s' E Hmid' Hl. apply tailm_none. eauto.
Qed.

Lemma captured_unique l n1 n2 : captured l n1 → captured l n2 → n1 = n2.
Proof.
  intros H1 H2.
  assert (re_match decl_re l = Some (Some n1)) as E1 by (apply decl_re_captured; eauto).
  assert (re_match decl_re l = Some (Some n2)) as E2 by (apply decl_re_captured; eauto).
  congruence.
Qed.

Lemma captured_declaration l name : captured l name → declaration l.
Proof.
  intros (ws & mid & s & -> & Hws & Hmid & (sep & sp & rest & -> & ? & ? & ? & ? & ?) & _).
  by exists ws, mid, sep, sp, name, rest.
Qed.

(** The pattern matches exactly the lines that carry a declaration. *)
Lemma decl_re_declaration l : re_match decl_re l ≠ None ↔ declaration l.
Proof.
  split.
  - destruct (re_match decl_re l) as [g|] eqn:E; [| done]. intros _.
    apply decl_re_captured in E as (name & _ & H). eauto using captured_declaration.
  - intros (ws & mid & sep & sp & name & rest & -> & Hws & Hmid & Hsep & Hsp & Hne & Hname).
    rewrite decl_re_eq, skip_app by (done || apply ends_run_hash).
    change (star dot tailm (mid ++ txt "coding" ++ sep :: sp ++ name ++ rest) ≠ None).
    intros H. destruct (star_none dot tailm (mid ++ txt "coding" ++ sep :: sp ++ name ++ rest))
      as [Hn _]. specialize (Hn H mid _ eq_refl Hmid).
    destruct (tailm_none (txt "coding" ++ sep :: sp ++ name ++ rest)) as [Ht _].
    apply (Ht Hn (name ++ run namechar rest)).
    exists sep, sp, (skip namechar rest). repeat split; try done.
    + by rewrite <- (assoc_L (++)), run_skip.
    + by destruct name.
    + apply all_in_app. split; [done | apply all_in_run].
    + apply ends_run_skip.
Qed.

Lemma blank_re_eq l : re_match blank_re l = blankm (skip ws3 l).
Proof.
  change (re_match blank_re l) with (star ws3 blankm l).
  apply star_skip. intros x t Hx. unfold blankm. simpl.
  destruct (ws3_not_hash_cr_lf x Hx) as [-> Hlf].
  destruct t; [| done]. destruct (N.eqb_spec x LF); done.
Qed.

(** The blank pattern has no group. *)
Lemma blank_re_group l g : re_match blank_re l = Some g → g = None.
Proof.
  rewrite blank_re_eq. unfold blankm, k0. simpl.
  destruct (skip ws3 l) as [|x [|y s]]; repeat case_match; congruence.
Qed.

Lemma blank_or_comment_match l : blank l ∨ comment l → re_match blank_re l = Some None.
Proof.
  rewrite blank_re_eq. intros [H | (ws & rest & -> & Hws)].
  - replace l with (l ++ []) by apply app_nil_r. by rewrite skip_app.
  - by rewrite skip_app by (done || apply ends_run_hash).
Qed.

Lemma no_break_cr_lf k c : linebreak k c = false → c ≠ CR ∧ c ≠ LF.
Proof.
  intros H. split; intros ->; by destruct k.
Qed.

Lemma match_blank_or_comment k l :
  no_break k l → re_match blank_re l ≠ None → blank l ∨ comment l.
Proof.
  intros Hl. rewrite blank_re_eq.
  pose proof (run_skip ws3 l) as E. pose proof (all_in_run ws3 l) as Hrun.
  destruct (skip ws3 l) as [|x s] eqn:Hs.
  - intros _. left. unfold blank. rewrite <- E, app_nil_r. done.
  - rewrite <- E in Hl. apply all_in_app in Hl as [_ [Hx _]%all_in_cons].
    apply negb_true_iff, (no_break_cr_lf k) in Hx as [Hcr Hlf].
    unfold blankm, k0. simpl. unfold hash_cr_lf.
    destruct (N.eqb_spec x 35) as [-> | Hh].
    + intros _. right. exists (run ws3 l), s. split; [symmetry; exact E | done].
    + destruct (N.eqb_spec x CR); [congruence |].
      destruct (N.eqb_spec x LF); [congruence |].
      simpl. by destruct s.
Qed.

(** On a line of [splitlines], the blank pattern matches exactly the blank
    lines and the comment lines. *)
Lemma blank_re_line k l :
  no_break k l → (re_match blank_re l ≠ None ↔ blank l ∨ comment l).
Proof.
  intros Hl. split; [by apply (match_blank_or_comment k) |].
  intros H. by rewrite blank_or_comment_match.
Qed.

(** *** Lines *)

Lemma splitlines_from_no_break k n :
  ∀ s cur, (length s ≤ n)%nat → no_break k (rev cur) →
           Forall (no_break k) (splitlines_from k cur s).
Proof.
  assert (no_break k (rev [])) as Hnil by apply all_in_nil.
  induction n as [|n IH]; intros s cur Hn Hcur; destruct s as [|c s]; simpl in *;
    try lia; try (destruct cur; [constructor | by repeat constructor]).
  destruct (linebreak k c) eqn:Hc.
  - constructor; [done |].
    destruct (c =? CR); [| apply IH; [lia | done]].
    destruct s as [|d s]; [apply IH; simpl; [lia | done] |].
    destruct (d =? LF); apply IH; simpl in *; (lia || done).
  - apply IH; [lia |]. simpl. apply all_in_app. split; [done |].
    apply all_in_cons. split; [by rewrite Hc | apply all_in_nil].
Qed.

(** The lines hold no line terminator. *)
Lemma splitlines_no_break k t : Forall (no_break k) (splitlines k t).
Proof. apply (splitlines_from_no_break k (length t)); [done | apply all_in_nil]. Qed.

Lemma linebreak_cr k : linebreak k CR = true.
Proof. by destruct k. Qed.

Lemma splitlines_from_cons k l brk t :
  ∀ cur, no_break k l → terminator k brk t →
         splitlines_from k cur (l ++ brk ++ t) = (rev cur ++ l) :: splitlines k t.
Proof.
  induction l as [|x l IH]; intros cur Hl Hbrk.
  - rewrite app_nil_r. destruct Hbrk as [-> | (c & -> & Hc & Hlf)]; simpl.
    + by rewrite linebreak_cr.
    + rewrite Hc. destruct (N.eqb_spec c CR) as [-> | Hne]; [| done].
      specialize (Hlf eq_refl). destruct t as [|d t]; [done |]. simpl in Hlf.
      by rewrite Hlf.
  - apply all_in_cons in Hl as [Hx Hl]. apply negb_true_iff in Hx.
    simpl. rewrite Hx, (IH (x :: cur)) by done. simpl.
    by rewrite <- (assoc_L (++)).
Qed.

(** A line and its terminator in front of [t] are the first line; the other
    lines are those of [t]. *)
Lemma splitlines_cons k l brk t :
  no_break k l → terminator k brk t →
  splitlines k (l ++ brk ++ t) = l :: splitlines k t.
Proof. intros. by apply (splitlines_from_cons k l brk t []). Qed.

(** A text without terminator is its only line, unless it is empty. *)
Lemma splitlines_last k l :
  no_break k l → l ≠ [] → splitlines k l = [l].
Proof.
  intros Hl Hne. unfold splitlines.
  assert (∀ cur, rev cur ++ l ≠ [] →
                 splitlines_from k cur l = [rev cur ++ l]) as H.
  { clear Hne. induction l as [|x l IH]; intros cur Hne.
    - rewrite app_nil_r in *. simpl. destruct cur; [done |]. done.
    - apply all_in_cons in Hl as [Hx Hl]. apply negb_true_iff in Hx.
      simpl. rewrite Hx, (IH Hl (x :: cur)); simpl; rewrite <- (assoc_L (++)); done. }
  by apply (H []).
Qed.

(** The first line of a text is [lines[0]]. *)
Lemma first_line_splitlines k t l :
  first_line k t l → ∃ ls, splitlines k t = l :: ls.
Proof.
  intros [Hl [(brk & rest & -> & Hbrk) | [-> Hne]]].
  - exists (splitlines k rest). by apply splitlines_cons.
  - exists []. by apply splitlines_last.
Qed.

(** ** [get_encoding], case by case *)

(** [get_encoding] returns a value from every state, leaves the host as it
    is and adds its pattern calls to the log. *)
Lemma get_encoding_run k t s :
  get_encoding k t s =
  (Val (fst (detect (splitlines k t))),
   State (st_host s)
     (st_log s ++ EvGetEncoding t :: snd (detect (splitlines k t)))).
Proof.
  unfold get_encoding, detect, match_line, bind, emit, index, ret. simpl.
  destruct (splitlines k t) as [|l0 [|l1 ls]]; simpl.
  - done.
  - destruct (re_match decl_re l0); simpl; by rewrite <- !(assoc_L (++)).
  - destruct (re_match decl_re l0); simpl; [by rewrite <- !(assoc_L (++)) |].
    destruct (re_match blank_re l0); simpl; [| by rewrite <- !(assoc_L (++))].
    destruct (re_match decl_re l1); simpl; by rewrite <- !(assoc_L (++)).
Qed.

Lemma result_get_encoding k t :
  result (get_encoding k t) = Val (fst (detect (splitlines k t))).
Proof. unfold result. by rewrite get_encoding_run. Qed.

Lemma events_get_encoding k t :
  events (get_encoding k t) = EvGetEncoding t :: snd (detect (splitlines k t)).
Proof. unfold events. by rewrite get_encoding_run. Qed.

(** ** The properties of [get_encoding] *)

Lemma splitlines_from_nonempty k s : ∀ cur, cur ≠ [] → splitlines_from k cur s ≠ [].
Proof.
  induction s as [|c s IH]; intros cur Hcur; simpl.
  - by destruct cur.
  - destruct (linebreak k c); [done | by apply IH].
Qed.

(** Only the empty text has no line. *)
Lemma splitlines_nil k t : splitlines k t = [] ↔ t = [].
Proof.
  split; [| by intros ->]. destruct t as [|c t]; [done |].
  unfold splitlines. simpl. destruct (linebreak k c); [done |].
  intros H. by apply splitlines_from_nonempty in H.
Qed.

Lemma not_declaration l : re_match decl_re l = None → ¬ declaration l.
Proof. intros H Hd. by apply decl_re_declaration in Hd. Qed.

Lemma declaration_captured l : declaration l → ∃ name, captured l name.
Proof.
  intros H. apply decl_re_declaration in H.
  destruct (re_match decl_re l) as [g|] eqn:E; [| done].
  apply decl_re_captured in E as (name & _ & Hc). eauto.
Qed.

(** C1. When the first line carries a declaration, [get_encoding] returns
    the name the pattern captures there (the name of the last [coding] token
    of the line, whole); when neither of the first two lines carries one, it
    returns [None]; and the three examples of the specification give
    [latin-1], [None] and [utf-8]. *)
Theorem get_encoding_declared k t :
  (∀ l0 ls, splitlines k t = l0 :: ls → declaration l0 →
     ∃ name, result (get_encoding k t) = Val (Some name) ∧
             captured l0 name ∧ re_match decl_re l0 = Some (Some name)) ∧
  ((∀ l, l ∈ take 2 (splitlines k t) → ¬ declaration l) →
     result (get_encoding k t) = Val None) ∧
  result (get_encoding k example_latin1) = Val (Some (txt "latin-1")) ∧
  result (get_encoding k example_plain) = Val None ∧
  result (get_encoding k example_second) = Val (Some (txt "utf-8")).
Proof.
  rewrite !result_get_encoding. repeat split.
  - intros l0 ls -> [name Hc]%declaration_captured. exists name.
    assert (re_match decl_re l0 = Some (Some name)) as E
      by (apply decl_re_captured; eauto).
    simpl. by rewrite E.
  - intros H. destruct (splitlines k t) as [|l0 ls]; [done |]. simpl.
    destruct (re_match decl_re l0) as [g|] eqn:E0.
    { destruct (H l0); [simpl; left | apply decl_re_declaration; congruence]. }
    destruct ls as [|l1 ls]; [done |].
    destruct (re_match blank_re l0); [| done]. simpl.
    destruct (re_match decl_re l1) as [g|] eqn:E1; [| done].
    destruct (H l1); [simpl; right; left | apply decl_re_declaration; congruence].
  - by destruct k.
  - by destruct k.
  - by destruct k.
Qed.

Lemma get_encoding_declared_witness :
  (∃ name, result (get_encoding Unicode example_latin1) = Val (Some name) ∧
           captured (txt "# coding: latin-1") name ∧
           re_match decl_re (txt "# coding: latin-1") = Some (Some name)) ∧
  result (get_encoding Unicode example_plain) = Val None.
Proof.
  split.
  - destruct (get_encoding_declared Unicode example_latin1) as [H _].
    apply (H _ [txt "print('hi')"]); [reflexivity |].
    exists [], (txt " "), (chr ":"), (txt " "), (txt "latin-1"), [].
    repeat split; try done; unfold all_in; by repeat constructor.
  - destruct (get_encoding_declared Unicode example_plain) as (_ & H & _).
    apply H. intros l Hl. apply not_declaration.
    change (l ∈ [txt "print('hi')"]) in Hl. apply list_elem_of_singleton in Hl as ->.
    reflexivity.
Defined.

(** C2, as stated, fails: when the comment on line 1 is itself a
    declaration, line 1's name is returned, not line 2's. *)
Lemma second_line_counterexample :
  splitlines Unicode example_two_declarations
    = [txt "# coding: latin-1"; txt "# coding: utf-8"] ∧
  comment (txt "# coding: latin-1") ∧
  re_match decl_re (txt "# coding: utf-8") = Some (Some (txt "utf-8")) ∧
  result (get_encoding Unicode example_two_declarations)
    = Val (Some (txt "latin-1")) ∧
  result (get_encoding Unicode example_two_declarations)
    ≠ Val (Some (txt "utf-8")).
Proof.
  repeat split; try reflexivity.
  - exists [], (txt " coding: latin-1"). split; [reflexivity | apply all_in_nil].
  - discriminate.
Qed.

(** C2, amended. When line 1 is blank or a comment and is not itself a
    declaration, and line 2 carries a declaration, [get_encoding] returns the
    name captured on line 2. When line 1 is neither blank nor a comment it
    returns [None] and applies no pattern to line 2. And a pattern is applied
    to line 2 only when line 1 is blank or a comment, and no declaration. *)
Theorem get_encoding_second_line k t l0 ls :
  splitlines k t = l0 :: ls →
  (∀ l1 ls', ls = l1 :: ls' → blank l0 ∨ comment l0 → ¬ declaration l0 →
     declaration l1 →
     ∃ name, result (get_encoding k t) = Val (Some name) ∧
             captured l1 name ∧ re_match decl_re l1 = Some (Some name)) ∧
  (¬ blank l0 → ¬ comment l0 →
     result (get_encoding k t) = Val None ∧
     ∀ p l, EvMatch p 1 l ∉ events (get_encoding k t)) ∧
  (∀ p l, EvMatch p 1 l ∈ events (get_encoding k t) →
     (blank l0 ∨ comment l0) ∧ ¬ declaration l0).
Proof.
  intros Hlines. rewrite result_get_encoding, events_get_encoding, Hlines.
  pose proof (splitlines_no_break k t) as Hnb. rewrite Hlines in Hnb.
  apply Forall_cons in Hnb as [Hnb _].
  assert (∀ p l, EvMatch p 1 l ∈ EvGetEncoding t :: snd (detect (l0 :: ls)) →
            (blank l0 ∨ comment l0) ∧ ¬ declaration l0) as Honly.
  { intros p l. simpl.
    destruct (re_match decl_re l0) as [g|] eqn:E0; [by not_logged |].
    destruct ls as [|l1 ls']; [by not_logged |].
    destruct (re_match blank_re l0) as [b|] eqn:Eb; [| by not_logged].
    intros _. split; [| by apply not_declaration].
    apply (match_blank_or_comment k); [done | congruence]. }
  split; [| split].
  - intros l1 ls' -> Hbc Hnd [name Hc]%declaration_captured. exists name.
    assert (re_match decl_re l1 = Some (Some name)) as E1
      by (apply decl_re_captured; eauto).
    assert (re_match decl_re l0 = None) as E0.
    { destruct (re_match decl_re l0) eqn:E; [| done].
      destruct Hnd. apply decl_re_declaration. congruence. }
    simpl. by rewrite E0, (blank_or_comment_match l0 Hbc), E1.
  - intros Hb Hc. split.
    + simpl. destruct (re_match decl_re l0) as [g|] eqn:E0.
      { apply decl_re_captured in E0 as (name & _ & (ws & mid & s & -> & Hws & _)).
        destruct Hc. by exists ws, (mid ++ s). }
      destruct ls as [|l1 ls']; [done |].
      destruct (re_match blank_re l0) as [b|] eqn:Eb; [| done].
      destruct (match_blank_or_comment k l0); [done | congruence | done | done].
    + intros p l Hin. destruct (Honly p l Hin) as [[? | ?] _]; done.
  - exact Honly.
Qed.

Lemma get_encoding_second_line_witness :
  (∃ name, result (get_encoding Unicode example_second) = Val (Some name) ∧
           captured (txt "# coding: utf-8") name ∧
           re_match decl_re (txt "# coding: utf-8") = Some (Some name)) ∧
  result (get_encoding Unicode (lines_of ["x = 1"; "# coding: utf-8"]%string))
    = Val None.
Proof.
  split.
  - destruct (get_encoding_second_line Unicode example_second []
                [txt "# coding: utf-8"; txt "x=1"] eq_refl) as [H _].
    apply (H _ [txt "x=1"] eq_refl).
    + left. apply all_in_nil.
    + by apply not_declaration.
    + exists [], (txt " "), (chr ":"), (txt " "), (txt "utf-8"), [].
      repeat split; try done; unfold all_in; by repeat constructor.
  - destruct (get_encoding_second_line Unicode
                (lines_of ["x = 1"; "# coding: utf-8"]%string) (txt "x = 1")
                [txt "# coding: utf-8"] eq_refl) as (_ & H & _).
    apply H.
    + intros Hb. apply Forall_cons in Hb as [Hx _]. discriminate.
    + intros (ws & rest & E & Hws). destruct ws as [|x ws]; [discriminate |].
      injection E as <- _. apply Forall_cons in Hws as [Hx _]. discriminate.
Defined.

(** C3. [get_encoding] returns a value, never an exception, whatever the
    text and whatever the state it starts in; on a text with no line, which
    is the empty text, it returns [None] at once, without applying a pattern;
    and when no pattern matches, the value is [None]. *)
Theorem get_encoding_total k t s :
  (∃ v, fst (get_encoding k t s) = Val v) ∧
  ((length (splitlines k t) < 1)%nat →
     t = [] ∧ result (get_encoding k t) = Val None ∧
     events (get_encoding k t) = [EvGetEncoding t]) ∧
  result (get_encoding k []) = Val None ∧
  ((∀ l, l ∈ splitlines k t → re_match decl_re l = None) →
     fst (get_encoding k t s) = Val None).
Proof.
  rewrite get_encoding_run, result_get_encoding, events_get_encoding.
  split; [eauto |]. split; [| split; [done |]].
  - intros Hlen. destruct (splitlines k t) eqn:E; [| simpl in Hlen; lia].
    by apply splitlines_nil in E.
  - intros Hnone. simpl. f_equal.
    destruct (splitlines k t) as [|l0 ls]; [done |]. simpl.
    rewrite (Hnone l0) by left. destruct ls as [|l1 ls]; [done |].
    destruct (re_match blank_re l0); [| done]. simpl.
    by rewrite (Hnone l1) by (right; left).
Qed.

Lemma get_encoding_total_witness :
  ([] : text) = [] ∧ result (get_encoding Unicode []) = Val None ∧
  events (get_encoding Unicode []) = [EvGetEncoding []].
Proof.
  destruct (get_encoding_total Unicode [] init) as (_ & H & _).
  apply H. simpl. lia.
Defined.

(** ** [execute_macro], case by case *)

(** Selecting the macro comes first: the store and the menu are updated
    before the record is looked up. *)
Lemma execute_macro_select E name s :
  execute_macro E name s =
  let s1 := State (select name (st_host s)) (st_log s ++ marks name (st_host s)) in
  match macros (st_host s) !! name with
  | None => (Val tt, s1)
  | Some macro =>
      if bool_decide (macro = ∅) then (Val tt, s1) else run_macro E macro s1
  end.
Proof.
  unfold execute_macro, select_macro, marks, select. run_m.
  destruct s as [[cur ms fs] log]. simpl.
  case_bool_decide as Hne; simpl.
  - destruct (ms !! name); [| done]. by case_bool_decide.
  - subst name. rewrite app_nil_r.
    destruct (ms !! cur); [| done]. by case_bool_decide.
Qed.

Lemma execute_run E p h log :
  try_except (execute E p) (fun e => emit (failed e)) (State h log)
  = guarded_exec E p h log.
Proof.
  unfold execute, guarded_exec. run_m. destruct (exec_prog E p h) as [[e|] h']; simpl.
  - by rewrite <- (assoc_L (++)).
  - done.
Qed.

Lemma has_program_nonempty (macro : gmap text pyval) v :
  macro !! txt "program" = Some v → bool_decide (macro = ∅) = false.
Proof.
  intros H. apply bool_decide_eq_false. intros ->. by rewrite lookup_empty in H.
Qed.

(** The inline branch: detection on the program, then [exec] of the program,
    encoded when an encoding was detected. *)
Lemma execute_macro_inline E name s macro program :
  macros (st_host s) !! name = Some macro →
  get_truthy macro (txt "execfromfile") = false →
  macro !! txt "program" = Some (PStr program) →
  program ≠ [] →
  execute_macro E name s =
  let h1 := select name (st_host s) in
  let log1 := st_log s ++ marks name (st_host s) ++
              EvGetEncoding program :: snd (detect (splitlines Unicode program)) in
  match fst (detect (splitlines Unicode program)) with
  | Some enc =>
      match str_encode E enc program with
      | Some b => guarded_exec E (Encoded enc b) h1 (log1 ++ [EvEncode enc program])
      | None =>
          (Val tt, State h1 (log1 ++ [EvEncode enc program; failed (CodecError enc)]))
      end
  | None => guarded_exec E (Source program) h1 log1
  end.
Proof.
  intros Hm Hfile Hprog Hne. rewrite execute_macro_select. simpl.
  rewrite Hm, (has_program_nonempty macro _ Hprog). unfold run_macro. rewrite Hfile.
  run_m. rewrite Hprog. destruct program as [|c program]; [done |]. simpl.
  rewrite get_encoding_run. simpl. rewrite <- !(assoc_L (++)). simpl.
  destruct (fst (detect (splitlines Unicode (c :: program)))) as [enc|].
  - destruct (str_encode E enc (c :: program)) as [b|].
    + rewrite <- execute_run. run_m. log_eq.
    + log_eq.
  - by rewrite <- execute_run.
Qed.

(** The file branch: the open file goes to [exec] as it is. *)
Lemma execute_macro_file E name s macro path content :
  macros (st_host s) !! name = Some macro →
  get_truthy macro (txt "execfromfile") = true →
  macro !! txt "macrofile" = Some (PStr path) →
  files (st_host s) !! path = Some content →
  execute_macro E name s =
  guarded_exec E (FileObject path) (select name (st_host s))
    (st_log s ++ marks name (st_host s) ++ [EvOpen path]).
Proof.
  intros Hm Hfile Hpath Hcontent. rewrite execute_macro_select. simpl.
  rewrite Hm.
  assert (bool_decide (macro = ∅) = false) as ->.
  { apply bool_decide_eq_false. intros ->. by rewrite lookup_empty in Hpath. }
  unfold run_macro. rewrite Hfile, <- execute_run. run_m. rewrite Hpath. unfold select. simpl.
  rewrite Hcontent. log_eq.
Qed.

(** *** The log only grows *)

Lemma appends_ret {A} (a : A) : appends (ret a).
Proof. intros s. exists []. simpl. by rewrite app_nil_r. Qed.

Lemma appends_raise {A} e : appends (@raise A e).
Proof. intros s. exists []. simpl. by rewrite app_nil_r. Qed.

Lemma appends_emit e : appends (emit e).
Proof. intros s. by exists [e]. Qed.

Lemma appends_get_host : appends get_host.
Proof. intros s. exists []. simpl. by rewrite app_nil_r. Qed.

Lemma appends_put_host h : appends (put_host h).
Proof. intros s. exists []. simpl. by rewrite app_nil_r. Qed.

Lemma appends_bind {A B} (m : M A) (f : A -> M B) :
  appends m → (∀ a, appends (f a)) → appends (bind m f).
Proof.
  intros Hm Hf s. unfold bind. destruct (Hm s) as [l1 E1].
  destruct (m s) as [[a|e] s1]; simpl in *.
  - destruct (Hf a s1) as [l2 E2]. exists (l1 ++ l2).
    by rewrite E2, E1, (assoc_L (++)).
  - by exists l1.
Qed.

Lemma appends_try_except {A} (m : M A) h :
  appends m → (∀ e, appends (h e)) → appends (try_except m h).
Proof.
  intros Hm Hh s. unfold try_except. destruct (Hm s) as [l1 E1].
  destruct (m s) as [[a|e] s1]; simpl in *.
  - by exists l1.
  - destruct (Hh e s1) as [l2 E2]. exists (l1 ++ l2).
    by rewrite E2, E1, (assoc_L (++)).
Qed.

Lemma appends_get_encoding k t : appends (get_encoding k t).
Proof. intros s. rewrite get_encoding_run. simpl. eauto. Qed.

Lemma appends_execute E p : appends (execute E p).
Proof.
  apply appends_bind; [apply appends_emit |]. intros _.
  apply appends_bind; [apply appends_get_host |]. intros h.
  destruct (exec_prog E p h) as [[e|] h'];
    (apply appends_bind; [apply appends_put_host | intros _]);
    [apply appends_raise | apply appends_ret].
Qed.

Create HintDb appends.

#[global] Hint Resolve appends_ret appends_raise appends_emit appends_get_host
  appends_put_host appends_get_encoding appends_execute : appends.

Ltac appends_step :=
  match goal with
  | |- appends (bind _ _) => apply appends_bind; [| intros ?]
  | |- appends (try_except _ _) => apply appends_try_except; [| intros ?]
  | |- appends (if ?b then _ else _) => destruct b
  | |- appends (match ?o with Some _ => _ | None => _ end) => destruct o
  | |- appends (match ?v with PStr _ => _ | _ => _ end) => destruct v
  | |- appends _ => solve [auto with appends]
  end.

Lemma appends_run_macro E macro : appends (run_macro E macro).
Proof.
  unfold run_macro, getitem, as_text, open_read. repeat appends_step.
Qed.

(** ** The properties of [execute_macro] *)

(** C4, as stated, fails: a macro run from its file is executed without
    encoding detection and without transcoding, although the file declares
    an encoding; the open file itself is given to [exec]. *)
Lemma execute_macro_file_counterexample :
  st_log (snd (execute_macro quiet_env (txt "m") file_state))
    = [EvMarkCurrent (txt "m"); EvOpen (txt "f.py");
       EvExec (FileObject (txt "f.py"))] ∧
  result (get_encoding Unicode example_latin1) = Val (Some (txt "latin-1")) ∧
  ∀ t, EvGetEncoding t ∉ st_log (snd (execute_macro quiet_env (txt "m") file_state)).
Proof.
  split; [reflexivity |]. split; [reflexivity |].
  intros t. change (EvGetEncoding t ∉ [EvMarkCurrent (txt "m"); EvOpen (txt "f.py");
                                        EvExec (FileObject (txt "f.py"))]).
  by not_logged.
Qed.

(** C4, amended. For a macro whose source is inline ([execfromfile] false,
    [program] a non-empty string), [execute_macro] runs the encoding detection
    on the program and then gives [exec] the program, encoded with the
    detected encoding when there is one. For a macro run from its file (the
    file exists), it opens the file and gives it to [exec] as it is, with no
    detection and no encoding by the plugin. *)
Theorem execute_macro_encoding E name s macro :
  macros (st_host s) !! name = Some macro →
  let h1 := select name (st_host s) in
  let log0 := st_log s ++ marks name (st_host s) in
  (∀ program,
     get_truthy macro (txt "execfromfile") = false →
     macro !! txt "program" = Some (PStr program) → program ≠ [] →
     let log1 := log0 ++ EvGetEncoding program ::
                   snd (detect (splitlines Unicode program)) in
     fst (get_encoding Unicode program (State h1 log0))
       = Val (fst (detect (splitlines Unicode program))) ∧
     execute_macro E name s =
       match fst (detect (splitlines Unicode program)) with
       | Some enc =>
           match str_encode E enc program with
           | Some b =>
               guarded_exec E (Encoded enc b) h1 (log1 ++ [EvEncode enc program])
           | None =>
               (Val tt, State h1 (log1 ++ [EvEncode enc program;
                                           failed (CodecError enc)]))
           end
       | None => guarded_exec E (Source program) h1 log1
       end) ∧
  (∀ path content,
     get_truthy macro (txt "execfromfile") = true →
     macro !! txt "macrofile" = Some (PStr path) →
     files (st_host s) !! path = Some content →
     execute_macro E name s
       = guarded_exec E (FileObject path) h1 (log0 ++ [EvOpen path])).
Proof.
  intros Hm h1 log0. split.
  - intros program Hfile Hprog Hne log1. split.
    + by rewrite get_encoding_run.
    + rewrite (execute_macro_inline E name s macro program) by done.
      subst log1 log0 h1. simpl. by rewrite <- !(assoc_L (++)).
  - intros path content Hfile Hpath Hcontent.
    rewrite (execute_macro_file E name s macro path content) by done.
    subst log0 h1. by rewrite <- !(assoc_L (++)).
Qed.

Lemma execute_macro_encoding_witness :
  execute_macro quiet_env (txt "m") inline_state
  = (Val tt,
     State (Host (txt "m") {[ txt "m" := inline_macro ]} ∅)
       [EvMarkCurrent (txt "m"); EvGetEncoding example_latin1;
        EvMatch DeclRe 0 (txt "# coding: latin-1");
        EvEncode (txt "latin-1") example_latin1;
        EvExec (Encoded (txt "latin-1") example_latin1)]) ∧
  execute_macro quiet_env (txt "m") file_state
  = (Val tt,
     State (Host (txt "m") {[ txt "m" := file_macro ]}
              {[ txt "f.py" := example_latin1 ]})
       [EvMarkCurrent (txt "m"); EvOpen (txt "f.py");
        EvExec (FileObject (txt "f.py"))]).
Proof.
  split.
  - destruct (execute_macro_encoding quiet_env (txt "m") inline_state inline_macro
                eq_refl) as [H _].
    destruct (H example_latin1 eq_refl eq_refl) as [_ ->]; [discriminate |].
    reflexivity.
  - destruct (execute_macro_encoding quiet_env (txt "m") file_state file_macro
                eq_refl) as [_ H].
    rewrite (H (txt "f.py") example_latin1 eq_refl eq_refl eq_refl).
    reflexivity.
Defined.

(** C5. When the name has no record in the registry (the lookup gives
    [None], it does not raise), or when the record's [program] is false or
    empty and [execfromfile] is not set, [execute_macro] returns normally,
    executes nothing and shows no error: it only makes [name] the current
    macro. *)
Theorem execute_macro_noop E name s :
  macros (st_host s) !! name = None ∨
  (∃ macro v, macros (st_host s) !! name = Some macro ∧
              get_truthy macro (txt "execfromfile") = false ∧
              macro !! txt "program" = Some v ∧ truthy v = false) →
  execute_macro E name s
    = (Val tt, State (select name (st_host s)) (st_log s ++ marks name (st_host s))) ∧
  (∀ p, EvExec p ∉ marks name (st_host s)) ∧
  (∀ title msg det, EvError title msg det ∉ marks name (st_host s)).
Proof.
  intros H. split; [| split].
  - rewrite execute_macro_select. simpl.
    destruct H as [-> | (macro & v & -> & Hfile & Hprog & Hv)]; [done |].
    rewrite (has_program_nonempty macro v Hprog). unfold run_macro.
    rewrite Hfile. run_m. by rewrite Hprog, Hv.
  - intros p. unfold marks. case_bool_decide; by not_logged.
  - intros title msg det. unfold marks. case_bool_decide; by not_logged.
Qed.

Lemma execute_macro_noop_witness :
  execute_macro quiet_env (txt "gone") inline_state
    = (Val tt, State (Host (txt "gone") {[ txt "m" := inline_macro ]} ∅)
                 [EvMarkCurrent (txt "gone")]) ∧
  execute_macro quiet_env (txt "m") empty_state = (Val tt, empty_state).
Proof.
  split.
  - destruct (execute_macro_noop quiet_env (txt "gone") inline_state) as [-> _];
      [by left | reflexivity].
  - destruct (execute_macro_noop quiet_env (txt "m") empty_state) as [-> _];
      [| reflexivity].
    right. by exists empty_macro, (PStr []).
Defined.

(** C10. Executing a name that is not the current macro stores it as the
    current macro and marks the menu again, first of all: the log continues
    with that mark, and for a name with no record, where nothing is executed,
    the store is changed all the same. *)
Theorem execute_macro_sets_current E name s :
  name ≠ current_macro (st_host s) →
  (∃ rest, st_log (snd (execute_macro E name s))
           = st_log s ++ EvMarkCurrent name :: rest) ∧
  (macros (st_host s) !! name = None →
     execute_macro E name s
       = (Val tt, State (Host name (macros (st_host s)) (files (st_host s)))
                    (st_log s ++ [EvMarkCurrent name])) ∧
     current_macro (st_host (snd (execute_macro E name s)))
       ≠ current_macro (st_host s)).
Proof.
  intros Hne. rewrite execute_macro_select. unfold marks.
  rewrite (bool_decide_eq_true_2 _ Hne). simpl. split.
  - destruct (macros (st_host s) !! name) as [macro|]; [| by exists []].
    case_bool_decide; [by exists [] |].
    destruct (appends_run_macro E macro
                (State (select name (st_host s)) (st_log s ++ [EvMarkCurrent name])))
      as [l ->].
    exists l. simpl. by rewrite <- (assoc_L (++)).
  - by intros ->.
Qed.

Lemma execute_macro_sets_current_witness :
  execute_macro quiet_env (txt "gone") inline_state
    = (Val tt, State (Host (txt "gone") {[ txt "m" := inline_macro ]} ∅)
                 [EvMarkCurrent (txt "gone")]) ∧
  current_macro (st_host (snd (execute_macro quiet_env (txt "gone") inline_state)))
    ≠ txt "Sample Dialog".
Proof.
  destruct (execute_macro_sets_current quiet_env (txt "gone") inline_state) as [_ H].
  - discriminate.
  - apply H. reflexivity.
Defined.

(** ** The registry handlers, case by case *)

(** *** Handlers that leave the host as it is *)

Lemma keeps_ret {A} (a : A) : keeps_host (ret a).
Proof. done. Qed.

Lemma keeps_raise {A} e : keeps_host (@raise A e).
Proof. done. Qed.

Lemma keeps_emit e : keeps_host (emit e).
Proof. done. Qed.

Lemma keeps_get_host : keeps_host get_host.
Proof. done. Qed.

Lemma keeps_bind {A B} (m : M A) (f : A -> M B) :
  keeps_host m → (∀ a, keeps_host (f a)) → keeps_host (bind m f).
Proof.
  intros Hm Hf s. unfold bind. specialize (Hm s).
  destruct (m s) as [[a|e] s1]; simpl in *; [| done].
  by rewrite Hf.
Qed.

Lemma keeps_for_each {A} (l : list A) (f : A -> M unit) :
  (∀ a, keeps_host (f a)) → keeps_host (for_each l f).
Proof.
  intros Hf. induction l as [|a l IH]; simpl; [apply keeps_ret |].
  apply keeps_bind; [apply Hf | done].
Qed.

Lemma keeps_getitem {A} (d : gmap text A) key : keeps_host (getitem d key).
Proof. unfold getitem. destruct (d !! key); [apply keeps_ret | apply keeps_raise]. Qed.

Lemma keeps_build_function_names_box : keeps_host build_function_names_box.
Proof. apply keeps_bind; [apply keeps_get_host | intros; apply keeps_emit]. Qed.

Lemma keeps_mark_current_macro : keeps_host mark_current_macro.
Proof. apply keeps_bind; [apply keeps_get_host | intros; apply keeps_emit]. Qed.

Lemma keeps_rebuild_menu : keeps_host rebuild_menu.
Proof.
  unfold rebuild_menu.
  apply keeps_bind; [apply keeps_emit | intros _].
  apply keeps_bind; [apply keeps_get_host | intros h].
  apply keeps_bind; [| intros; apply keeps_mark_current_macro].
  apply keeps_for_each. intros name.
  apply keeps_bind; [apply keeps_getitem | intros macro].
  apply keeps_bind; [apply keeps_getitem | intros; apply keeps_emit].
Qed.

Lemma keeps_commit : keeps_host commit.
Proof. apply keeps_emit. Qed.

(** What follows the update of the registry in the handlers. *)
Lemma keeps_refresh {A} (m : M A) :
  keeps_host m →
  keeps_host (build_function_names_box ;; rebuild_menu ;; commit ;; m).
Proof.
  intros Hm.
  apply keeps_bind; [apply keeps_build_function_names_box | intros _].
  apply keeps_bind; [apply keeps_rebuild_menu | intros _].
  apply keeps_bind; [apply keeps_commit | done].
Qed.

(** The registry after the handler, whether or not the menu could be built. *)
Lemma save_button_host f s :
  st_host (snd (save_button_clicked f s))
  = Host (current_macro (st_host s))
         (<[function_name f := record_of f]> (macros (st_host s)))
         (files (st_host s)).
Proof.
  assert (keeps_host (build_function_names_box ;; rebuild_menu ;; commit)) as H.
  { apply keeps_bind; [apply keeps_build_function_names_box | intros _].
    apply keeps_bind; [apply keeps_rebuild_menu | intros _]. apply keeps_commit. }
  exact (H (State (Host (current_macro (st_host s))
                     (<[function_name f := record_of f]> (macros (st_host s)))
                     (files (st_host s))) (st_log s))).
Qed.

(** *** The names in order *)

Lemma sorted_keys_perm {A} (d : gmap text A) : sorted_keys d ≡ₚ elements (dom d).
Proof. apply merge_sort_Permutation. Qed.

Lemma sorted_keys_elem {A} (d : gmap text A) n : n ∈ sorted_keys d ↔ is_Some (d !! n).
Proof. by rewrite sorted_keys_perm, elem_of_elements, elem_of_dom. Qed.

Lemma sorted_keys_nodup {A} (d : gmap text A) : NoDup (sorted_keys d).
Proof. rewrite sorted_keys_perm. apply NoDup_elements. Qed.

Lemma save_all_macros fs : ∀ s,
  macros (st_host (save_all fs s))
  = foldl (λ m f, <[function_name f := record_of f]> m) (macros (st_host s)) fs.
Proof.
  induction fs as [|f fs IH]; intros s; [done |].
  unfold save_all in *. simpl. by rewrite IH, save_button_host.
Qed.

(** ** The properties of the registry handlers *)

(** C6. [save_button_clicked] stores the record of the form under its name:
    a new entry when the name is new, in place of the old entry when the
    name exists, the other entries untouched; the record carries its name;
    and after any run of saves the registry is the original one with each
    form's record put under its name, and the names it lists have no
    duplicate. *)
Theorem save_button_upsert f s :
  let name := function_name f in
  let m := macros (st_host s) in
  let m' := macros (st_host (snd (save_button_clicked f s))) in
  m' = <[name := record_of f]> m ∧
  m' !! name = Some (record_of f) ∧
  record_of f !! txt "name" = Some (PStr name) ∧
  (∀ other, other ≠ name → m' !! other = m !! other) ∧
  (m !! name = None → size m' = S (size m)) ∧
  (is_Some (m !! name) → size m' = size m) ∧
  (∀ fs,
     macros (st_host (save_all fs s))
       = foldl (λ m f, <[function_name f := record_of f]> m) m fs ∧
     NoDup (sorted_keys (macros (st_host (save_all fs s))))).
Proof.
  intros name m m'. subst m'. rewrite save_button_host. simpl. fold name m.
  split; [done |]. split; [apply lookup_insert_eq |]. split; [done |].
  split; [intros other Hne; by apply lookup_insert_ne |].
  split; [intros Hnew; by apply map_size_insert_None |].
  split.
  - intros [r Hr]. by rewrite map_size_insert, Hr.
  - intros fs. split; [apply save_all_macros | apply sorted_keys_nodup].
Qed.

Lemma save_button_upsert_witness :
  size (macros (st_host (snd (save_button_clicked form_m init)))) = 1%nat ∧
  size (macros (st_host (snd (save_button_clicked form_m inline_state)))) = 1%nat.
Proof.
  split.
  - destruct (save_button_upsert form_m init) as (_ & _ & _ & _ & H & _).
    apply H. reflexivity.
  - destruct (save_button_upsert form_m inline_state) as (_ & _ & _ & _ & _ & H & _).
    apply H. by exists inline_macro.
Defined.

(** The registry after [delete_button_clicked] on a present name. *)
Lemma delete_button_host f s :
  is_Some (macros (st_host s) !! function_name f) →
  st_host (snd (delete_button_clicked f s))
  = Host (current_macro (st_host s))
         (delete (function_name f) (macros (st_host s)))
         (files (st_host s)).
Proof.
  intros Hin. unfold delete_button_clicked.
  change (bind get_host ?k s) with (k (st_host s) s). cbv beta.
  rewrite (bool_decide_eq_true_2 _ Hin).
  assert (keeps_host (commit ;; build_function_names_box ;; rebuild_menu)) as H.
  { apply keeps_bind; [apply keeps_commit | intros _].
    apply keeps_bind; [apply keeps_build_function_names_box | intros _].
    apply keeps_rebuild_menu. }
  exact (H (State (Host (current_macro (st_host s))
                     (delete (function_name f) (macros (st_host s)))
                     (files (st_host s))) (st_log s))).
Qed.

(** C7. [delete_button_clicked] removes the entry of a name that is in the
    registry, and only that entry. For a name that is not in the registry it
    changes nothing in the store and shows one error dialog, "Macro not
    defined"; it raises no exception. *)
Theorem delete_button_absent f s :
  let name := function_name f in
  let m := macros (st_host s) in
  (is_Some (m !! name) →
     let m' := macros (st_host (snd (delete_button_clicked f s))) in
     m' = delete name m ∧ m' !! name = None ∧
     ∀ other, other ≠ name → m' !! other = m !! other) ∧
  (m !! name = None →
     delete_button_clicked f s
       = (Val tt,
          State (st_host s)
            (st_log s ++ [EvError "Exec Macro" "Macro not defined" NoDetail]))).
Proof.
  intros name m. split.
  - intros Hin m'. subst m'. rewrite delete_button_host by done. simpl. fold name m.
    split; [done |]. split; [apply lookup_delete_eq |].
    intros other Hne. by apply lookup_delete_ne.
  - intros Hout. unfold delete_button_clicked.
    change (bind get_host ?k s) with (k (st_host s) s). cbv beta. fold name m.
    rewrite bool_decide_eq_false_2; [done |]. rewrite Hout. by intros [? ?].
Qed.

Lemma delete_button_absent_witness :
  macros (st_host (snd (delete_button_clicked form_m inline_state))) = ∅ ∧
  delete_button_clicked form_m init
    = (Val tt, State init_host [EvError "Exec Macro" "Macro not defined" NoDetail]).
Proof.
  split.
  - destruct (delete_button_absent form_m inline_state) as [H _].
    destruct H as [-> _]; [by exists inline_macro | reflexivity].
  - destruct (delete_button_absent form_m init) as [_ H].
    apply H. reflexivity.
Defined.

Lemma keeps_try_except {A} (m : M A) h :
  keeps_host m → (∀ e, keeps_host (h e)) → keeps_host (try_except m h).
Proof.
  intros Hm Hh s. unfold try_except. specialize (Hm s).
  destruct (m s) as [[a|e] s1]; simpl in *; [done |]. by rewrite Hh.
Qed.

Lemma import_button_run E s filename rest content new :
  choose_files E = filename :: rest →
  files (st_host s) !! filename = Some content →
  json_load E content = Some new →
  import_button_clicked E s =
  let old := macros (st_host s) in
  let log1 := st_log s ++ [EvOpen filename; ask_overwrite new old] in
  if question_dialog E (overlap new old) then
    after_merge E new
      (State (Host (current_macro (st_host s)) (new ∪ old) (files (st_host s))) log1)
  else (Val tt, State (st_host s) log1).
Proof.
  intros Hfile Hcontent Hload. unfold import_button_clicked, after_merge, ask_overwrite.
  rewrite Hfile. run_m. rewrite Hcontent. simpl. rewrite Hload. simpl.
  destruct (question_dialog E (overlap new (macros (st_host s)))); simpl.
  - by rewrite <- !(assoc_L (++)).
  - destruct s as [h log]. simpl. by rewrite <- !(assoc_L (++)).
Qed.

Lemma keeps_after_merge E new : keeps_host (after_merge E new).
Proof.
  apply keeps_try_except; [| intros; apply keeps_emit].
  apply keeps_refresh, keeps_emit.
Qed.

Lemma appends_for_each {A} (l : list A) (f : A -> M unit) :
  (∀ a, appends (f a)) → appends (for_each l f).
Proof.
  intros Hf. induction l as [|a l IH]; simpl; [apply appends_ret |].
  by apply appends_bind.
Qed.

Lemma appends_rebuild_menu : appends rebuild_menu.
Proof.
  unfold rebuild_menu, mark_current_macro.
  apply appends_bind; [apply appends_emit | intros _].
  apply appends_bind; [apply appends_get_host | intros h].
  apply appends_bind; [| intros _; repeat appends_step].
  apply appends_for_each. intros name. unfold getitem. repeat appends_step.
Qed.

Lemma appends_after_merge E new : appends (after_merge E new).
Proof.
  unfold after_merge, build_function_names_box, commit.
  apply appends_try_except; [| intros; apply appends_emit].
  apply appends_bind; [repeat appends_step | intros _].
  apply appends_bind; [apply appends_rebuild_menu | intros _].
  repeat appends_step.
Qed.

Lemma overlap_elem {A} (new old : gmap text A) n :
  n ∈ overlap new old ↔ is_Some (new !! n) ∧ is_Some (old !! n).
Proof.
  unfold overlap.
  by rewrite merge_sort_Permutation, elem_of_elements, elem_of_intersection,
    !elem_of_dom.
Qed.

Lemma overlap_empty {A} (new : gmap text A) : overlap new ∅ = [].
Proof.
  unfold overlap. rewrite dom_empty_L, (right_absorb_L ∅ (∩)), elements_empty. done.
Qed.

(** After "yes" the registry is the union, the imported mapping first. *)
Lemma import_button_accepted E s filename rest content new :
  choose_files E = filename :: rest →
  files (st_host s) !! filename = Some content →
  json_load E content = Some new →
  question_dialog E (overlap new (macros (st_host s))) = true →
  macros (st_host (snd (import_button_clicked E s))) = new ∪ macros (st_host s).
Proof.
  intros Hfile Hcontent Hload Hyes.
  rewrite (import_button_run E s filename rest content new) by done.
  simpl. by rewrite Hyes, keeps_after_merge.
Qed.

(** C8. Once the chosen file is read, [import_button_clicked] asks for a
    confirmation: the question "Some macros will be overwitten", whose
    details list the names present both in the file and in the registry,
    each of them once and no other name. It merges nothing before the
    answer. On "no" the store is unchanged. On "yes" the registry becomes
    the union of the imported mapping and the old registry, the imported
    record winning for every name in both. *)
Theorem import_confirmation E s filename rest content new :
  choose_files E = filename :: rest →
  files (st_host s) !! filename = Some content →
  json_load E content = Some new →
  let old := macros (st_host s) in
  let s' := snd (import_button_clicked E s) in
  let question :=
    EvQuestion "Some macros will be overwitten" (Names (overlap new old)) in
  (∀ n, n ∈ overlap new old ↔ is_Some (new !! n) ∧ is_Some (old !! n)) ∧
  NoDup (overlap new old) ∧
  (∃ l, st_log s' = st_log s ++ EvOpen filename :: question :: l) ∧
  (question_dialog E (overlap new old) = false →
     import_button_clicked E s
       = (Val tt, State (st_host s) (st_log s ++ [EvOpen filename; question]))) ∧
  (question_dialog E (overlap new old) = true →
     macros (st_host s') = new ∪ old ∧
     (∀ n r, new !! n = Some r → macros (st_host s') !! n = Some r) ∧
     (∀ n, new !! n = None → macros (st_host s') !! n = old !! n)).
Proof.
  intros Hfile Hcontent Hload old s' question. subst s' question.
  rewrite (import_button_run E s filename rest content new) by done.
  simpl. fold old. unfold ask_overwrite. split; [apply overlap_elem |].
  split; [unfold overlap; rewrite merge_sort_Permutation; apply NoDup_elements |].
  split; [| split].
  - destruct (question_dialog E (overlap new old)); [| by exists []].
    destruct (appends_after_merge E new
                (State (Host (current_macro (st_host s)) (new ∪ old) (files (st_host s)))
                   (st_log s ++
                      [EvOpen filename;
                       EvQuestion "Some macros will be overwitten"
                         (Names (overlap new old))])))
      as [l ->].
    exists l. simpl. by rewrite <- (assoc_L (++)).
  - by intros ->.
  - intros ->. rewrite !keeps_after_merge. simpl. split; [done |]. split.
    + intros n r Hn. by apply lookup_union_Some_l.
    + intros n Hn. by apply lookup_union_r.
Qed.

Lemma codec_env_load answer m :
  json_load (codec_env answer) (json_dump (codec_env answer) true 4 m) = Some m.
Proof. simpl. apply decode_encode. Qed.

Lemma import_confirmation_witness :
  st_host (snd (import_button_clicked (codec_env false) import_state))
    = st_host import_state ∧
  macros (st_host (snd (import_button_clicked (codec_env true) import_state)))
    !! txt "m" = Some empty_macro.
Proof.
  split.
  - destruct (import_confirmation (codec_env false) import_state (txt "macros.json") []
                (json_dump (codec_env true) true 4 {[ txt "m" := empty_macro ]})
                {[ txt "m" := empty_macro ]} eq_refl eq_refl
                (codec_env_load false _)) as (_ & _ & _ & H & _).
    by rewrite H.
  - destruct (import_confirmation (codec_env true) import_state (txt "macros.json") []
                (json_dump (codec_env true) true 4 {[ txt "m" := empty_macro ]})
                {[ txt "m" := empty_macro ]} eq_refl eq_refl
                (codec_env_load true _)) as (_ & _ & _ & _ & H).
    destruct H as (_ & H & _); [done |]. by apply H.
Defined.

Lemma export_button_run E s filename :
  choose_save_file E = Some filename → filename ≠ [] →
  writable E filename = true →
  export_button_clicked E s =
  (Val tt,
   State (Host (current_macro (st_host s)) (macros (st_host s))
            (<[filename := json_dump E true 4 (macros (st_host s))]> (files (st_host s))))
     (st_log s ++ [EvOpen filename;
                   EvInfo "Macros exported" (Some (size (macros (st_host s))))])).
Proof.
  intros Hname Hne Hw. unfold export_button_clicked, write_file. rewrite Hname.
  destruct filename as [|c filename]; [done |]. run_m. rewrite Hw. simpl.
  by rewrite <- !(assoc_L (++)).
Qed.

(** C9. Export the registry to a file, with sorted keys and an indentation
    of four, then import that file into an empty registry and confirm: the
    registry is the original one again, so every record has its fields back.
    The JSON library is taken to read back what it wrote for this registry. *)
Theorem export_import_roundtrip E s filename rest :
  choose_save_file E = Some filename → filename ≠ [] →
  writable E filename = true →
  choose_files E = filename :: rest →
  json_load E (json_dump E true 4 (macros (st_host s))) = Some (macros (st_host s)) →
  question_dialog E [] = true →
  let exported := snd (export_button_clicked E s) in
  files (st_host exported) !! filename = Some (json_dump E true 4 (macros (st_host s))) ∧
  macros (st_host (snd (import_button_clicked E (emptied exported))))
    = macros (st_host s) ∧
  ∀ name record field,
    macros (st_host s) !! name = Some record →
    ∃ record',
      macros (st_host (snd (import_button_clicked E (emptied exported)))) !! name
        = Some record' ∧
      record' !! field = record !! field.
Proof.
  intros Hsave Hne Hw Hopen Hload Hyes exported.
  assert (files (st_host exported) !! filename
          = Some (json_dump E true 4 (macros (st_host s)))) as Hfile.
  { subst exported. rewrite (export_button_run E s filename) by done.
    simpl. apply lookup_insert_eq. }
  assert (macros (st_host (snd (import_button_clicked E (emptied exported))))
          = macros (st_host s)) as Hback.
  { rewrite (import_button_accepted E (emptied exported) filename rest
               (json_dump E true 4 (macros (st_host s))) (macros (st_host s)));
      try done.
    - apply (right_id_L ∅ (∪)).
    - simpl. by rewrite overlap_empty. }
  split; [done |]. split; [done |].
  intros name record field Hrecord. exists record. by rewrite Hback.
Qed.

Lemma export_import_roundtrip_witness :
  macros (st_host (snd (import_button_clicked (codec_env true)
    (emptied (snd (export_button_clicked (codec_env true) inline_state))))))
  = {[ txt "m" := inline_macro ]}.
Proof.
  destruct (export_import_roundtrip (codec_env true) inline_state (txt "macros.json") []
              eq_refl ltac:(discriminate) eq_refl eq_refl
              (codec_env_load true _) eq_refl) as (_ & H & _).
  exact H.
Defined.

(** * Further properties *)

(** ** [get_encoding] *)

Lemma captured_name l name : captured l name → name ≠ [] ∧ all_in namechar name.
Proof. intros (ws & mid & s & _ & _ & _ & (sep & sp & rest & _ & _ & _ & ? & ? & _) & _). done. Qed.

(** What [get_encoding] returns comes from one of the first two lines. *)
Lemma get_encoding_source k t s name :
  fst (get_encoding k t s) = Val (Some name) →
  ∃ l, l ∈ take 2 (splitlines k t) ∧ captured l name.
Proof.
  rewrite get_encoding_run. simpl. intros [= H].
  destruct (splitlines k t) as [|l0 ls]; [done |]. simpl in H.
  destruct (re_match decl_re l0) as [g|] eqn:E0.
  { simpl in H. subst g. exists l0. split; [left |].
    apply decl_re_captured in E0 as (n & [= <-] & Hc). done. }
  destruct ls as [|l1 ls]; [done |].
  destruct (re_match blank_re l0); [| done]. simpl in H.
  destruct (re_match decl_re l1) as [g|] eqn:E1; [| done]. subst g.
  exists l1. split; [right; left |].
  apply decl_re_captured in E1 as (n & [= <-] & Hc). done.
Qed.

(** X1. An encoding returned by [get_encoding] is never empty and is made of
    letters, digits, hyphens, dots and underscores only; it is the name
    captured on one of the first two lines. *)
Theorem get_encoding_name k t s name :
  fst (get_encoding k t s) = Val (Some name) →
  name ≠ [] ∧ all_in namechar name ∧
  ∃ l, l ∈ take 2 (splitlines k t) ∧ captured l name.
Proof.
  intros H. destruct (get_encoding_source k t s name H) as (l & Hl & Hc).
  destruct (captured_name l name Hc). eauto.
Qed.

Lemma get_encoding_name_witness :
  txt "latin-1" ≠ [] ∧ all_in namechar (txt "latin-1") ∧
  ∃ l, l ∈ take 2 (splitlines Unicode example_latin1) ∧ captured l (txt "latin-1").
Proof. apply (get_encoding_name Unicode example_latin1 init). reflexivity. Defined.

Lemma detect_take2 ls : fst (detect (take 2 ls)) = fst (detect ls).
Proof.
  destruct ls as [|l0 [|l1 ls]]; [done | done |]. simpl.
  by destruct (re_match decl_re l0).
Qed.

(** X2. [get_encoding] reads the first two lines only: two texts, of either
    kind, with the same first two lines give the same result. *)
Theorem get_encoding_two_lines k k' t t' s s' :
  take 2 (splitlines k t) = take 2 (splitlines k' t') →
  fst (get_encoding k t s) = fst (get_encoding k' t' s').
Proof.
  intros H. rewrite !get_encoding_run. simpl.
  by rewrite <- (detect_take2 (splitlines k t)), H, detect_take2.
Qed.

Lemma get_encoding_two_lines_witness :
  fst (get_encoding Unicode (lines_of [""; "# coding: utf-8"; "x=1"]%string) init)
  = fst (get_encoding Bytes (lines_of [""; "# coding: utf-8"; "# coding: latin-1"]%string)
           inline_state).
Proof. apply get_encoding_two_lines. vm_compute. reflexivity. Defined.

Lemma splitlines_from_kind n :
  ∀ s cur, (length s ≤ n)%nat →
           (∀ c, c ∈ s → linebreak Unicode c = linebreak Bytes c) →
           splitlines_from Unicode cur s = splitlines_from Bytes cur s.
Proof.
  induction n as [|n IH]; intros s cur Hn Hs; destruct s as [|c s];
    cbn [splitlines_from length] in *; try done; try lia.
  rewrite (Hs c) by left.
  assert (∀ d, d ∈ s → linebreak Unicode d = linebreak Bytes d) as Hs'
    by (intros d Hd; apply Hs; by right).
  destruct (linebreak Bytes c).
  - f_equal. destruct (c =? CR); [| apply IH; [lia | done]].
    destruct s as [|d s]; [done |].
    destruct (d =? LF); apply IH; cbn [length] in *; try lia; try done.
    intros e He. apply Hs'. by right.
  - apply IH; [lia | done].
Qed.

(** X3. A byte string and a unicode string of the same characters have the
    same lines, and [get_encoding] the same result, when none of the
    characters is a terminator of unicode strings only (VT, FF, FS, GS, RS,
    NEL, LS, PS). With such a character the two can differ: a VT inside the
    comment hides the declaration of the unicode string. *)
Theorem get_encoding_kind t s :
  ((∀ c, c ∈ t → linebreak Unicode c = linebreak Bytes c) →
     splitlines Unicode t = splitlines Bytes t ∧
     fst (get_encoding Unicode t s) = fst (get_encoding Bytes t s)) ∧
  fst (get_encoding Bytes example_vt s) = Val (Some (txt "latin-1")) ∧
  fst (get_encoding Unicode example_vt s) = Val None.
Proof.
  split; [| by rewrite !get_encoding_run].
  intros H.
  assert (splitlines Unicode t = splitlines Bytes t) as E
    by (by apply (splitlines_from_kind (length t))).
  split; [done |]. by rewrite !get_encoding_run, E.
Qed.

Lemma get_encoding_kind_witness :
  splitlines Unicode example_latin1 = splitlines Bytes example_latin1 ∧
  fst (get_encoding Unicode example_latin1 init)
  = fst (get_encoding Bytes example_latin1 init).
Proof.
  destruct (get_encoding_kind example_latin1 init) as [H _]. apply H.
  intros c Hc. unfold example_latin1 in Hc. simpl in Hc.
  repeat (apply elem_of_cons in Hc as [-> | Hc]; [reflexivity |]).
  by apply elem_of_nil in Hc.
Defined.

(** ** [execute_macro] *)

Lemma detect_quiet ls : quiet (snd (detect ls)).
Proof.
  unfold quiet. destruct ls as [|l0 [|l1 ls]]; simpl; [constructor | |].
  - destruct (re_match decl_re l0); by repeat constructor.
  - destruct (re_match decl_re l0); [by repeat constructor |].
    destruct (re_match blank_re l0); by repeat constructor.
Qed.




Lemma select_current (h : host) : select (current_macro h) h = h.
Proof. by destruct h. Qed.

Lemma marks_current (h : host) : marks (current_macro h) h = [].
Proof. unfold marks. by rewrite bool_decide_eq_false_2 by (intros H; by apply H). Qed.

(** X5. [execute_current_macro] touches neither the store nor the menu
    before it runs the macro: it is the [try] statement of the current
    macro's record from the state as it is. When the current name has no
    record, or an empty one, the whole state is left as it was. *)
Theorem execute_current_macro_stale E s :
  (macros (st_host s) !! current_macro (st_host s) = None →
     execute_current_macro E s = (Val tt, s)) ∧
  (∀ macro, macros (st_host s) !! current_macro (st_host s) = Some macro →
     execute_current_macro E s
       = if bool_decide (macro = ∅) then (Val tt, s) else run_macro E macro s).
Proof.
  unfold execute_current_macro.
  change (bind get_host ?k s) with (k (st_host s) s). cbv beta.
  rewrite execute_macro_select, select_current, marks_current, app_nil_r.
  destruct s as [h log]. simpl. split.
  - by intros ->.
  - by intros macro ->.
Qed.

Lemma execute_current_macro_stale_witness :
  execute_current_macro quiet_env inline_state = (Val tt, inline_state).
Proof.
  destruct (execute_current_macro_stale quiet_env inline_state) as [H _].
  apply H. reflexivity.
Defined.

(** X6. A macro run from a file that cannot be used is reported and not
    executed: without a [macrofile] field the dialog shows a [KeyError], with
    a [macrofile] that is no string a [TypeError], and with the name of a
    file that does not exist an [IOError], after the attempt to open it. The
    [program] field plays no part. *)
Theorem execute_macro_file_missing E name s macro :
  macros (st_host s) !! name = Some macro →
  get_truthy macro (txt "execfromfile") = true →
  let h1 := select name (st_host s) in
  let log0 := st_log s ++ marks name (st_host s) in
  (macro !! txt "macrofile" = None →
     execute_macro E name s
       = (Val tt, State h1 (log0 ++ [failed (KeyError (txt "macrofile"))]))) ∧
  (∀ v, macro !! txt "macrofile" = Some v → (∀ path, v ≠ PStr path) →
     execute_macro E name s = (Val tt, State h1 (log0 ++ [failed TypeError]))) ∧
  (∀ path, macro !! txt "macrofile" = Some (PStr path) →
     files (st_host s) !! path = None →
     execute_macro E name s
       = (Val tt, State h1 (log0 ++ [EvOpen path; failed (IOError path)]))).
Proof.
  intros Hm Hfile h1 log0. rewrite execute_macro_select. simpl. rewrite Hm.
  assert (bool_decide (macro = ∅) = false) as ->.
  { apply bool_decide_eq_false. intros ->. unfold get_truthy in Hfile.
    by rewrite lookup_empty in Hfile. }
  unfold run_macro. rewrite Hfile. fold h1 log0. split; [| split].
  - intros Hnone. run_m. by rewrite Hnone.
  - intros v Hv Hnot. run_m. rewrite Hv. simpl.
    destruct v as [| | |path]; try done. by destruct (Hnot path).
  - intros path Hpath Hnofile. run_m. rewrite Hpath. simpl.
    unfold h1, select. simpl. rewrite Hnofile. simpl.
    by rewrite <- !(assoc_L (++)).
Qed.

Lemma execute_macro_file_missing_witness :
  execute_macro quiet_env (txt "m")
    (State (Host (txt "m") {[ txt "m" := file_macro ]} ∅) [])
  = (Val tt,
     State (Host (txt "m") {[ txt "m" := file_macro ]} ∅)
       [EvOpen (txt "f.py"); failed (IOError (txt "f.py"))]).
Proof.
  destruct (execute_macro_file_missing quiet_env (txt "m")
              (State (Host (txt "m") {[ txt "m" := file_macro ]} ∅) []) file_macro)
    as (_ & _ & H); [reflexivity | reflexivity |].
  apply (H (txt "f.py")); reflexivity.
Defined.

(** X7. A record without a [program] field and without the file flag is no
    silent no-op: the dialog shows a [KeyError]. A [program] that is true but
    no string is reported with an [AttributeError]. In neither case does
    [exec] run. *)
Theorem execute_macro_program_missing E name s macro :
  macros (st_host s) !! name = Some macro → macro ≠ ∅ →
  get_truthy macro (txt "execfromfile") = false →
  let h1 := select name (st_host s) in
  let log0 := st_log s ++ marks name (st_host s) in
  (macro !! txt "program" = None →
     execute_macro E name s
       = (Val tt, State h1 (log0 ++ [failed (KeyError (txt "program"))]))) ∧
  (∀ v, macro !! txt "program" = Some v → truthy v = true →
     (∀ program, v ≠ PStr program) →
     execute_macro E name s = (Val tt, State h1 (log0 ++ [failed AttributeError]))).
Proof.
  intros Hm Hne Hfile h1 log0. rewrite execute_macro_select. simpl. rewrite Hm.
  rewrite (bool_decide_eq_false_2 _ Hne).
  unfold run_macro. rewrite Hfile. fold h1 log0. split.
  - intros Hnone. run_m. by rewrite Hnone.
  - intros v Hv Htrue Hnot. run_m. rewrite Hv. simpl. rewrite Htrue.
    destruct v as [| | |program]; try done. by destruct (Hnot program).
Qed.

Lemma execute_macro_program_missing_witness :
  execute_macro quiet_env (txt "m")
    (State (Host (txt "m") {[ txt "m" := {[ txt "name" := PStr (txt "m") ]} ]} ∅) [])
  = (Val tt,
     State (Host (txt "m") {[ txt "m" := {[ txt "name" := PStr (txt "m") ]} ]} ∅)
       [failed (KeyError (txt "program"))]).
Proof.
  destruct (execute_macro_program_missing quiet_env (txt "m")
              (State (Host (txt "m") {[ txt "m" := {[ txt "name" := PStr (txt "m") ]} ]} ∅) [])
              {[ txt "name" := PStr (txt "m") ]}) as [H _].
  - reflexivity.
  - intros Hempty. apply (f_equal (λ m : gmap text pyval, m !! txt "name")) in Hempty.
    discriminate.
  - reflexivity.
  - apply H. reflexivity.
Defined.

(** ** The menu *)

#[global] Instance text_le_total : Total text_le.
Proof.
  intros a. induction a as [|x a IH]; intros [|y b]; unfold text_le in *; simpl; auto.
  destruct (N.ltb_spec x y); [auto |]. destruct (N.ltb_spec y x); [auto |]. apply IH.
Qed.

Lemma sorted_keys_sorted {A} (d : gmap text A) : Sorted text_le (sorted_keys d).
Proof. apply Sorted_merge_sort, _. Qed.

Lemma rebuild_menu_run s :
  rebuild_menu s =
  match for_each (sorted_keys (macros (st_host s))) (add_action (macros (st_host s)))
          (State (st_host s) (st_log s ++ [EvMenuClear])) with
  | (Val _, s') =>
      (Val tt, State (st_host s') (st_log s' ++ [EvMarkCurrent (current_macro (st_host s'))]))
  | (Exc e, s') => (Exc e, s')
  end.
Proof. reflexivity. Qed.

Lemma add_action_run m name s :
  add_action m name s =
  match m !! name with
  | None => (Exc (KeyError name), s)
  | Some r =>
      match r !! txt "documentation" with
      | None => (Exc (KeyError (txt "documentation")), s)
      | Some v => (Val tt, State (st_host s) (st_log s ++ [EvMenuAction name v]))
      end
  end.
Proof.
  unfold add_action. run_m. destruct (m !! name) as [r|]; [| done]. simpl.
  by destruct (r !! txt "documentation").
Qed.

Lemma for_each_cons {A} (a : A) l f s :
  for_each (a :: l) f s =
  match f a s with
  | (Val _, s') => for_each l f s'
  | (Exc e, s') => (Exc e, s')
  end.
Proof. reflexivity. Qed.

Lemma add_actions_documented m l : ∀ s,
  (∀ n, n ∈ l → ∃ r, m !! n = Some r ∧ is_Some (r !! txt "documentation")) →
  for_each l (add_action m) s
  = (Val tt, State (st_host s)
               (st_log s ++ map (λ n, EvMenuAction n (tooltip_of m n)) l)).
Proof.
  induction l as [|a l IH]; intros [h log] Hl.
  - simpl. by rewrite app_nil_r.
  - destruct (Hl a) as (r & Hr & v & Hv); [left |].
    rewrite for_each_cons, add_action_run, Hr, Hv.
    rewrite IH by (intros n Hn; apply Hl; by right).
    assert (tooltip_of m a = v) as Ht
      by (unfold tooltip_of; rewrite Hr; simpl; by rewrite Hv).
    cbn [map st_host st_log]. by rewrite Ht, <- (assoc_L (++)).
Qed.

Lemma add_actions_undocumented m l : ∀ s,
  (∀ n, n ∈ l → is_Some (m !! n)) →
  (∃ n r, n ∈ l ∧ m !! n = Some r ∧ r !! txt "documentation" = None) →
  ∃ acts,
    for_each l (add_action m) s
    = (Exc (KeyError (txt "documentation")), State (st_host s) (st_log s ++ acts)) ∧
    Forall (λ e, is_menu_action e = true) acts.
Proof.
  induction l as [|a l IH]; intros [h log] Hl (n & r & Hn & Hr & Hdoc).
  - by apply elem_of_nil in Hn.
  - destruct (Hl a) as [ra Hra]; [left |].
    rewrite for_each_cons, add_action_run, Hra.
    destruct (ra !! txt "documentation") as [v|] eqn:Hv.
    + apply elem_of_cons in Hn as [-> | Hn]; [congruence |].
      destruct (IH (State h (log ++ [EvMenuAction a v]))) as (acts & E & Hacts).
      { intros x Hx. apply Hl. by right. }
      { by exists n, r. }
      exists (EvMenuAction a v :: acts). simpl in *. rewrite E, <- (assoc_L (++)).
      split; [done |]. by constructor.
    + exists []. simpl. by rewrite app_nil_r.
Qed.

Lemma rebuild_menu_undocumented s name r :
  macros (st_host s) !! name = Some r → r !! txt "documentation" = None →
  ∃ acts,
    rebuild_menu s
    = (Exc (KeyError (txt "documentation")),
       State (st_host s) (st_log s ++ EvMenuClear :: acts)) ∧
    Forall (λ e, is_menu_action e = true) acts.
Proof.
  intros Hr Hdoc. rewrite rebuild_menu_run.
  destruct (add_actions_undocumented (macros (st_host s))
              (sorted_keys (macros (st_host s)))
              (State (st_host s) (st_log s ++ [EvMenuClear]))) as (acts & E & Hacts).
  { intros n Hn. by apply sorted_keys_elem. }
  { exists name, r. split; [| done]. apply sorted_keys_elem. by rewrite Hr. }
  exists acts. split; [| done]. rewrite E. simpl. by rewrite <- (assoc_L (++)).
Qed.

(** X8. When every record has a documentation, [rebuild_menu] clears the
    menu, adds one action per macro with its documentation as tooltip, and
    marks the current macro; it does not change the store. The actions come
    in ascending order of the names, each name of the registry once. *)
Theorem rebuild_menu_documented s :
  documented (macros (st_host s)) →
  rebuild_menu s
    = (Val tt,
       State (st_host s)
         (st_log s ++ EvMenuClear :: menu_actions (macros (st_host s)) ++
            [EvMarkCurrent (current_macro (st_host s))])) ∧
  Sorted text_le (sorted_keys (macros (st_host s))) ∧
  NoDup (sorted_keys (macros (st_host s))) ∧
  ∀ name, name ∈ sorted_keys (macros (st_host s))
          ↔ is_Some (macros (st_host s) !! name).
Proof.
  intros Hdoc. split; [| split; [apply sorted_keys_sorted |
                       split; [apply sorted_keys_nodup | apply sorted_keys_elem]]].
  rewrite rebuild_menu_run, add_actions_documented.
  - simpl. unfold menu_actions. by rewrite <- !(assoc_L (++)).
  - intros n [r Hr]%sorted_keys_elem. exists r. split; [done |]. by apply (Hdoc n).
Qed.

Lemma documented_singleton (name : text) (r : gmap text pyval) :
  is_Some (r !! txt "documentation") → documented {[ name := r ]}.
Proof. intros Hr n r' [_ <-]%lookup_singleton_Some. done. Qed.

Lemma rebuild_menu_documented_witness :
  rebuild_menu inline_state
  = (Val tt,
     State (st_host inline_state)
       [EvMenuClear; EvMenuAction (txt "m") (PStr []);
        EvMarkCurrent (txt "Sample Dialog")]).
Proof.
  destruct (rebuild_menu_documented inline_state) as [-> _]; [| reflexivity].
  apply documented_singleton. by exists (PStr []).
Defined.

(** ** The registry handlers *)

(** X9. When a record other than the saved one has no documentation,
    [save_button_clicked] raises a [KeyError] out of the rebuilding of the
    menu: the new record is in the registry, but the commit is never
    reached. *)
Theorem save_button_undocumented f s other r :
  other ≠ function_name f →
  macros (st_host s) !! other = Some r → r !! txt "documentation" = None →
  fst (save_button_clicked f s) = Exc (KeyError (txt "documentation")) ∧
  macros (st_host (snd (save_button_clicked f s))) !! function_name f
    = Some (record_of f) ∧
  ∃ new, st_log (snd (save_button_clicked f s)) = st_log s ++ new ∧ EvCommit ∉ new.
Proof.
  intros Hne Hr Hdoc. split; [| split].
  2: { rewrite save_button_host. simpl. apply lookup_insert_eq. }
  all: set (m' := <[function_name f := record_of f]> (macros (st_host s)));
    set (s1 := State (Host (current_macro (st_host s)) m' (files (st_host s)))
                 (st_log s ++ [EvBuildNames (sorted_keys m')]));
    change (save_button_clicked f s) with (bind rebuild_menu (λ _, commit) s1);
    destruct (rebuild_menu_undocumented s1 other r) as (acts & E & Hacts);
    [subst s1 m'; simpl; by rewrite lookup_insert_ne | done |];
    unfold bind; rewrite E; simpl.
  - done.
  - exists (EvBuildNames (sorted_keys m') :: EvMenuClear :: acts).
    split; [by rewrite <- (assoc_L (++)) |].
    intros [? | [? | Hin]%elem_of_cons]%elem_of_cons; try done.
    rewrite Forall_forall in Hacts. by specialize (Hacts _ Hin).
Qed.

Lemma save_button_undocumented_witness :
  fst (save_button_clicked form_m bare_state) = Exc (KeyError (txt "documentation")) ∧
  macros (st_host (snd (save_button_clicked form_m bare_state))) !! txt "m"
    = Some (record_of form_m) ∧
  ∃ new, st_log (snd (save_button_clicked form_m bare_state)) = [] ++ new ∧
         EvCommit ∉ new.
Proof.
  apply (save_button_undocumented form_m bare_state (txt "b") bare_macro);
    [discriminate | reflexivity | reflexivity].
Defined.

Lemma after_merge_undocumented E new s name r :
  macros (st_host s) !! name = Some r → r !! txt "documentation" = None →
  ∃ acts,
    after_merge E new s
    = (Val tt,
       State (st_host s)
         (st_log s ++ EvBuildNames (sorted_keys (macros (st_host s))) ::
            EvMenuClear :: acts ++ [import_failed (KeyError (txt "documentation"))])) ∧
    Forall (λ e, is_menu_action e = true) acts.
Proof.
  intros Hr Hdoc.
  set (s1 := State (st_host s)
               (st_log s ++ [EvBuildNames (sorted_keys (macros (st_host s)))])).
  destruct (rebuild_menu_undocumented s1 name r Hr Hdoc) as (acts & Erun & Hacts).
  exists acts. split; [| done].
  unfold after_merge, try_except.
  change ((build_function_names_box ;; rebuild_menu ;; commit ;;
           emit (EvInfo "Macros imported" (Some (size new)))) s)
    with (bind rebuild_menu
            (λ _, commit ;; emit (EvInfo "Macros imported" (Some (size new)))) s1).
  unfold bind at 1. rewrite Erun. unfold emit. log_eq.
Qed.

(** X10. An import that brings, or meets, a record without documentation
    ends in the error dialog "Failed to import macros" with a [KeyError]:
    yet the registry is merged all the same, nothing is committed and no
    count of imported macros is shown. *)
Theorem import_undocumented E s filename rest content new name r :
  choose_files E = filename :: rest →
  files (st_host s) !! filename = Some content →
  json_load E content = Some new →
  question_dialog E (overlap new (macros (st_host s))) = true →
  (new ∪ macros (st_host s)) !! name = Some r →
  r !! txt "documentation" = None →
  fst (import_button_clicked E s) = Val tt ∧
  macros (st_host (snd (import_button_clicked E s))) = new ∪ macros (st_host s) ∧
  ∃ events,
    st_log (snd (import_button_clicked E s)) = st_log s ++ events ∧
    last events = Some (import_failed (KeyError (txt "documentation"))) ∧
    (EvCommit ∉ events) ∧ (∀ title count, EvInfo title count ∉ events).
Proof.
  intros Hfile Hcontent Hload Hyes Hr Hdoc.
  rewrite (import_button_run E s filename rest content new) by done.
  simpl. rewrite Hyes.
  set (s1 := State (Host (current_macro (st_host s)) (new ∪ macros (st_host s))
                      (files (st_host s)))
               (st_log s ++ [EvOpen filename; ask_overwrite new (macros (st_host s))])).
  destruct (after_merge_undocumented E new s1 name r Hr Hdoc) as (acts & -> & Hacts).
  simpl. split; [done |]. split; [done |].
  eexists. split; [by rewrite <- !(assoc_L (++)) |]. simpl.
  rewrite Forall_forall in Hacts.
  split; [| split].
  - by rewrite !last_cons, last_snoc.
  - intros Hin. repeat (apply elem_of_cons in Hin as [? | Hin]; [done |]).
    apply elem_of_app in Hin as [Hin | Hin]; [by specialize (Hacts _ Hin) |].
    by apply list_elem_of_singleton in Hin.
  - intros title count Hin.
    repeat (apply elem_of_cons in Hin as [? | Hin]; [done |]).
    apply elem_of_app in Hin as [Hin | Hin]; [by specialize (Hacts _ Hin) |].
    by apply list_elem_of_singleton in Hin.
Qed.

Lemma import_undocumented_witness :
  fst (import_button_clicked (codec_env true) bare_import_state) = Val tt ∧
  macros (st_host (snd (import_button_clicked (codec_env true) bare_import_state)))
    = {[ txt "b" := bare_macro ]} ∪ macros (st_host bare_import_state) ∧
  ∃ events,
    st_log (snd (import_button_clicked (codec_env true) bare_import_state))
      = st_log bare_import_state ++ events ∧
    last events = Some (import_failed (KeyError (txt "documentation"))) ∧
    (EvCommit ∉ events) ∧ (∀ title count, EvInfo title count ∉ events).
Proof.
  apply (import_undocumented (codec_env true) bare_import_state (txt "macros.json") []
           (json_dump (codec_env true) true 4 {[ txt "b" := bare_macro ]})
           {[ txt "b" := bare_macro ]} (txt "b") bare_macro);
    [reflexivity | reflexivity | apply codec_env_load | reflexivity | | reflexivity].
  apply lookup_union_Some_l, lookup_singleton_eq.
Defined.

(** X11. The ways [import_button_clicked] gives up. With no file chosen it
    does nothing at all. A chosen file that cannot be opened, or that holds
    no JSON document, ends in the error dialog "Failed to import macros":
    the store is as it was, no question is asked and the handler returns
    normally. *)
Theorem import_button_failures E s :
  (choose_files E = [] → import_button_clicked E s = (Val tt, s)) ∧
  (∀ filename rest, choose_files E = filename :: rest →
     (files (st_host s) !! filename = None →
        import_button_clicked E s
        = (Val tt,
           State (st_host s)
             (st_log s ++ [EvOpen filename; import_failed (IOError filename)]))) ∧
     (∀ content, files (st_host s) !! filename = Some content →
        json_load E content = None →
        ∃ e, import_button_clicked E s
             = (Val tt,
                State (st_host s)
                  (st_log s ++ [EvOpen filename; import_failed e])))).
Proof.
  split.
  - intros Hnone. unfold import_button_clicked. by rewrite Hnone.
  - intros filename rest Hfile. split.
    + intros Hmissing. unfold import_button_clicked. rewrite Hfile. run_m.
      rewrite Hmissing. log_eq.
    + intros content Hcontent Hload. exists ValueError.
      unfold import_button_clicked. rewrite Hfile. run_m.
      rewrite Hcontent. simpl. rewrite Hload. log_eq.
Qed.

Lemma import_button_failures_witness :
  import_button_clicked quiet_env inline_state = (Val tt, inline_state) ∧
  import_button_clicked (codec_env true) inline_state
  = (Val tt,
     State (st_host inline_state)
       [EvOpen (txt "macros.json"); import_failed (IOError (txt "macros.json"))]).
Proof.
  split.
  - destruct (import_button_failures quiet_env inline_state) as [H _].
    apply H. reflexivity.
  - destruct (import_button_failures (codec_env true) inline_state) as [_ H].
    destruct (H (txt "macros.json") [] eq_refl) as [H' _].
    apply H'. reflexivity.
Defined.

(** X12. The outcomes of [export_button_clicked]. A cancelled dialog, or an
    empty name, leaves everything as it was. A file that cannot be opened
    for writing ends in the error dialog "Failed to export macros" and no
    file changes. A successful export writes the one file: the registry, the
    current macro and every other file are untouched, and nothing is
    committed. *)
Theorem export_button_outcomes E s :
  (choose_save_file E = None ∨ choose_save_file E = Some [] →
     export_button_clicked E s = (Val tt, s)) ∧
  (∀ filename, choose_save_file E = Some filename → filename ≠ [] →
     (writable E filename = false →
        export_button_clicked E s
        = (Val tt,
           State (st_host s)
             (st_log s ++ [EvOpen filename; export_failed (IOError filename)]))) ∧
     (writable E filename = true →
        let s' := snd (export_button_clicked E s) in
        fst (export_button_clicked E s) = Val tt ∧
        macros (st_host s') = macros (st_host s) ∧
        current_macro (st_host s') = current_macro (st_host s) ∧
        (∀ path, path ≠ filename →
           files (st_host s') !! path = files (st_host s) !! path) ∧
        ∃ events, st_log s' = st_log s ++ events ∧ EvCommit ∉ events)).
Proof.
  split.
  - intros [Hnone | Hempty]; unfold export_button_clicked.
    + by rewrite Hnone.
    + by rewrite Hempty.
  - intros filename Hname Hne. split.
    + intros Hw. unfold export_button_clicked, write_file. rewrite Hname.
      destruct filename as [|c filename]; [done |]. run_m. rewrite Hw. log_eq.
    + intros Hw s'. subst s'. rewrite (export_button_run E s filename) by done.
      simpl. split; [done |]. split; [done |]. split; [done |]. split.
      * intros path Hpath. by apply lookup_insert_ne.
      * eexists. split; [done |].
        intros [? | [? | ?%elem_of_nil]%elem_of_cons]%elem_of_cons; done.
Qed.

Lemma export_button_outcomes_witness :
  export_button_clicked quiet_env inline_state = (Val tt, inline_state) ∧
  macros (st_host (snd (export_button_clicked (codec_env true) inline_state)))
  = macros (st_host inline_state).
Proof.
  split.
  - destruct (export_button_outcomes quiet_env inline_state) as [H _].
    apply H. by left.
  - destruct (export_button_outcomes (codec_env true) inline_state) as [_ H].
    destruct (H (txt "macros.json") eq_refl ltac:(discriminate)) as [_ H'].
    destruct (H' eq_refl) as (_ & Hm & _). exact Hm.
Defined.

Lemma delete_button_missing f s :
  macros (st_host s) !! function_name f = None →
  delete_button_clicked f s
  = (Val tt,
     State (st_host s)
       (st_log s ++ [EvError "Exec Macro" "Macro not defined" NoDetail])).
Proof.
  intros Hout. unfold delete_button_clicked.
  change (bind get_host ?k s) with (k (st_host s) s). cbv beta.
  rewrite bool_decide_eq_false_2; [done |]. rewrite Hout. by intros [? ?].
Qed.

(** X13. Saving a macro under a new name and then deleting it gives the
    store back as it was, whether or not the menu could be rebuilt in
    between; a second delete finds nothing and shows "Macro not defined". *)
Theorem save_delete_roundtrip f s :
  macros (st_host s) !! function_name f = None →
  let saved := snd (save_button_clicked f s) in
  let deleted := snd (delete_button_clicked f saved) in
  macros (st_host saved) !! function_name f = Some (record_of f) ∧
  st_host deleted = st_host s ∧
  delete_button_clicked f deleted
  = (Val tt,
     State (st_host s)
       (st_log deleted ++ [EvError "Exec Macro" "Macro not defined" NoDetail])).
Proof.
  intros Hnew saved deleted.
  assert (st_host saved
          = Host (current_macro (st_host s))
              (<[function_name f := record_of f]> (macros (st_host s)))
              (files (st_host s))) as Hsaved by apply save_button_host.
  assert (macros (st_host saved) !! function_name f = Some (record_of f)) as Hin
    by (rewrite Hsaved; apply lookup_insert_eq).
  assert (st_host deleted = st_host s) as Hback.
  { subst deleted. rewrite delete_button_host by (by rewrite Hin).
    rewrite Hsaved. simpl. rewrite delete_insert_id by done. by destruct (st_host s). }
  split; [done |]. split; [done |].
  rewrite delete_button_missing by (by rewrite Hback). by rewrite Hback.
Qed.

Lemma save_delete_roundtrip_witness :
  st_host (snd (delete_button_clicked form_m (snd (save_button_clicked form_m init))))
  = init_host.
Proof.
  destruct (save_delete_roundtrip form_m init) as (_ & H & _); [reflexivity |].
  exact H.
Defined.

(** X14. How saves compose. Of two saves under one name the last wins, so
    that saving the same form twice is saving it once; two saves under
    different names give the same store in either order. *)
Theorem save_button_compose f g s :
  let after f s := st_host (snd (save_button_clicked f s)) in
  (function_name f = function_name g →
     after g (snd (save_button_clicked f s)) = after g s) ∧
  after f (snd (save_button_clicked f s)) = after f s ∧
  (function_name f ≠ function_name g →
     after g (snd (save_button_clicked f s)) = after f (snd (save_button_clicked g s))).
Proof.
  intros after. subst after. cbv beta. rewrite !save_button_host. simpl.
  split; [| split].
  - intros ->. by rewrite insert_insert_eq.
  - by rewrite insert_insert_eq.
  - intros Hne. by rewrite insert_insert_ne.
Qed.

Lemma save_button_compose_witness :
  st_host (snd (save_button_clicked form_m (snd (save_button_clicked form_m init))))
  = st_host (snd (save_button_clicked form_m init)).
Proof.
  destruct (save_button_compose form_m form_m init) as [H _].
  apply H. reflexivity.
Defined.

Lemma overlap_self {A} (m : gmap text A) : overlap m m = sorted_keys m.
Proof. unfold overlap, sorted_keys. by rewrite (idemp_L (∩)). Qed.

(** X15. Importing the file that was just exported, into the registry it was
    exported from: the question lists every macro of the registry, in order,
    and whatever the answer the registry is the same afterwards. The JSON
    library is taken to read back what it wrote for this registry. *)
Theorem import_own_export E s filename rest :
  choose_save_file E = Some filename → filename ≠ [] →
  writable E filename = true →
  choose_files E = filename :: rest →
  json_load E (json_dump E true 4 (macros (st_host s))) = Some (macros (st_host s)) →
  let exported := snd (export_button_clicked E s) in
  let imported := snd (import_button_clicked E exported) in
  macros (st_host imported) = macros (st_host s) ∧
  ∃ events,
    st_log imported
    = st_log exported ++
        EvOpen filename ::
        EvQuestion "Some macros will be overwitten"
          (Names (sorted_keys (macros (st_host s)))) :: events.
Proof.
  intros Hsave Hne Hw Hopen Hload exported imported. subst imported.
  assert (files (st_host exported) !! filename
          = Some (json_dump E true 4 (macros (st_host s)))) as Hfile.
  { subst exported. rewrite (export_button_run E s filename) by done.
    simpl. apply lookup_insert_eq. }
  assert (macros (st_host exported) = macros (st_host s)) as Hm.
  { subst exported. by rewrite (export_button_run E s filename). }
  rewrite (import_button_run E exported filename rest
             (json_dump E true 4 (macros (st_host s))) (macros (st_host s))) by done.
  simpl. rewrite Hm. unfold ask_overwrite. rewrite overlap_self.
  destruct (question_dialog E (sorted_keys (macros (st_host s)))).
  - split.
    + rewrite keeps_after_merge. simpl. apply (idemp_L (∪)).
    + destruct (appends_after_merge E (macros (st_host s))
                  (State (Host (current_macro (st_host exported))
                            (macros (st_host s) ∪ macros (st_host s))
                            (files (st_host exported)))
                     (st_log exported ++
                        [EvOpen filename;
                         EvQuestion "Some macros will be overwitten"
                           (Names (sorted_keys (macros (st_host s))))])))
        as [l ->].
      exists l. simpl. by rewrite <- (assoc_L (++)).
  - simpl. split; [done |]. by exists [].
Qed.

Lemma import_own_export_witness :
  macros (st_host (snd (import_button_clicked (codec_env false)
    (snd (export_button_clicked (codec_env false) inline_state)))))
  = macros (st_host inline_state).
Proof.
  destruct (import_own_export (codec_env false) inline_state (txt "macros.json") []
              eq_refl ltac:(discriminate) eq_refl eq_refl
              (codec_env_load false _)) as [H _].
  exact H.
Defined.

(** ** The form *)

(** Unfold the operations of [W]. *)
Ltac run_w :=
  unfold set_text, set_checked, update;
  unfold wbind, wret, wraise, wtry, get_form, put_form;
  simpl.

Lemma lift_run {A} (m : M A) f s :
  lift m (Window f s) = (fst (m s), Window f (snd (m s))).
Proof. unfold lift. simpl. by destruct (m s). Qed.

(** X16. The buttons that [function_name_edited] sets are never both
    enabled. Delete is enabled exactly for a name with a record that is not
    empty, and then [delete_button_clicked] does remove the record; save is
    enabled exactly for a name that has no record, or an empty one. *)
Theorem function_name_edited_buttons m name :
  let b := function_name_edited m name in
  save_enabled b && delete_enabled b = false ∧
  (delete_enabled b = true ↔ name ≠ [] ∧ ∃ r, m !! name = Some r ∧ r ≠ ∅) ∧
  (save_enabled b = true ↔ name ≠ [] ∧ (m !! name = None ∨ m !! name = Some ∅)) ∧
  (delete_enabled b = true →
     ∀ f s, function_name f = name → macros (st_host s) = m →
            macros (st_host (snd (delete_button_clicked f s))) = delete name m).
Proof.
  intros b. subst b. unfold function_name_edited.
  destruct name as [|c name].
  { simpl. split; [done |]. split; [split; [done | by intros [? _]] |].
    split; [split; [done | by intros [? _]] | done]. }
  destruct (m !! (c :: name)) as [r|] eqn:Hr.
  - case_bool_decide as Hempty; simpl.
    + subst r. split; [done |]. split.
      { split; [done |]. intros (_ & r & [= <-] & Hne). done. }
      split; [| done]. split; [| done]. intros _. split; [done | by right].
    + split; [done |]. split.
      { split; [| done]. intros _. split; [done |]. by exists r. }
      split.
      { split; [done |]. intros (_ & [? | [= ?]]); done. }
      intros _ f s Hname Hm. rewrite delete_button_host.
      * simpl. by rewrite Hname, Hm.
      * rewrite Hname, Hm, Hr. by exists r.
  - simpl. split; [done |]. split.
    { split; [done |]. intros (_ & r & ? & _). done. }
    split; [| done]. split; [| done]. intros _. split; [done | by left].
Qed.

Lemma function_name_edited_buttons_witness :
  macros (st_host (snd (delete_button_clicked form_m inline_state)))
  = delete (txt "m") {[ txt "m" := inline_macro ]}.
Proof.
  destruct (function_name_edited_buttons {[ txt "m" := inline_macro ]} (txt "m"))
    as (_ & _ & _ & H).
  apply H; reflexivity.
Defined.

Lemma function_index_changed_record Q name func f s p mf c d :
  name ≠ [] → macros (st_host s) !! name = Some func →
  shown Q (default PNone (func !! txt "program")) = Some p →
  shown Q (default PNone (func !! txt "macrofile")) = Some mf →
  checked Q (default (PBool false) (func !! txt "execfromfile")) = Some c →
  shown Q (default PNone (func !! txt "documentation")) = Some d →
  function_index_changed Q name (Window f s)
  = (Val (Buttons false true), Window (Form (function_name f) mf c d p) s).
Proof.
  intros Hne Hfunc Hp Hmf Hc Hd. unfold function_index_changed.
  destruct name as [|x name]; [done |].
  unfold wbind at 1. rewrite lift_run. simpl.
  unfold wbind at 1. rewrite lift_run. unfold getitem. rewrite Hfunc. simpl.
  unfold set_text, set_checked. rewrite Hp, Hmf, Hc, Hd. by destruct s.
Qed.

Lemma record_of_fields f :
  record_of f !! txt "program" = Some (PStr (program f)) ∧
  record_of f !! txt "macrofile" = Some (PStr (macrofile f)) ∧
  record_of f !! txt "execfromfile" = Some (PBool (fromfile_checkbox f)) ∧
  record_of f !! txt "documentation" = Some (PStr (documentation f)).
Proof. done. Qed.

(** X17. What [save_button_clicked] stores is what [function_index_changed]
    reads. After a save under a name that is not empty, choosing the saved
    name fills the form with the values that were saved, whatever it held,
    and enables delete only. After a save under the empty name the record
    is in the registry all the same, but choosing the empty name clears the
    form and disables both buttons: that record does not come back. The
    toolkit is taken to show a string as it is and to set a truth value as
    it is. *)
Theorem function_index_changed_saved Q f g s :
  (∀ t, shown Q (PStr t) = Some t) → (∀ b, checked Q (PBool b) = Some b) →
  let saved := snd (save_button_clicked f s) in
  macros (st_host saved) !! function_name f = Some (record_of f) ∧
  function_index_changed Q (function_name f) (Window g saved)
  = if bool_decide (function_name f = [])
    then (Val (Buttons false false),
          Window (Form (function_name g) [] false [] []) saved)
    else (Val (Buttons false true),
          Window (Form (function_name g) (macrofile f) (fromfile_checkbox f)
                    (documentation f) (program f)) saved).
Proof.
  intros Hshown Hchecked saved.
  assert (macros (st_host saved) !! function_name f = Some (record_of f)) as Hin.
  { subst saved. rewrite save_button_host. simpl. apply lookup_insert_eq. }
  split; [done |]. case_bool_decide as Hname.
  - by rewrite Hname.
  - destruct (record_of_fields f) as (Hp & Hmf & Hc & Hd).
    apply (function_index_changed_record Q _ (record_of f)); [done | done | ..].
    + rewrite Hp. apply Hshown.
    + rewrite Hmf. apply Hshown.
    + rewrite Hc. apply Hchecked.
    + rewrite Hd. apply Hshown.
Qed.

Lemma function_index_changed_saved_witness :
  function_index_changed pyqt5 (txt "m")
    (Window blank_form (snd (save_button_clicked form_m init)))
  = (Val (Buttons false true),
     Window (Form [] [] false (txt "says hi") (txt "print('hi')"))
       (snd (save_button_clicked form_m init))).
Proof.
  destruct (function_index_changed_saved pyqt5 form_m blank_form init) as [_ H];
    [reflexivity | reflexivity |].
  exact H.
Defined.

(** X18. Where [function_index_changed] fails. A name without a record
    raises [KeyError] and the form is as it was. A record without a
    [macrofile] field, as the record of the default registry is, hands
    [None] to [setText]: with a toolkit that refuses it the handler raises
    [TypeError] when the program text is already replaced and the other
    fields are not. The empty name clears the four fields and disables both
    buttons. *)
Theorem function_index_changed_failures Q name f s :
  (name ≠ [] → macros (st_host s) !! name = None →
     function_index_changed Q name (Window f s) = (Exc (KeyError name), Window f s)) ∧
  (∀ func p,
     name ≠ [] → macros (st_host s) !! name = Some func →
     shown Q (default PNone (func !! txt "program")) = Some p →
     func !! txt "macrofile" = None → shown Q PNone = None →
     function_index_changed Q name (Window f s)
     = (Exc TypeError, Window (with_program p f) s)) ∧
  function_index_changed Q [] (Window f s)
  = (Val (Buttons false false), Window (Form (function_name f) [] false [] []) s).
Proof.
  split; [| split].
  - intros Hne Hnone. unfold function_index_changed.
    destruct name as [|x name]; [done |].
    unfold wbind at 1. rewrite lift_run. simpl.
    unfold wbind at 1. rewrite lift_run. unfold getitem. rewrite Hnone. simpl.
    by destruct s.
  - intros func p Hne Hfunc Hp Hmf Hnone. unfold function_index_changed.
    destruct name as [|x name]; [done |].
    unfold wbind at 1. rewrite lift_run. simpl.
    unfold wbind at 1. rewrite lift_run. unfold getitem. rewrite Hfunc. simpl.
    unfold set_text, set_checked. rewrite Hp, Hmf. simpl. rewrite Hnone.
    by destruct s.
  - done.
Qed.

Lemma function_index_changed_failures_witness :
  function_index_changed pyqt5 (txt "Sample Dialog") default_window
  = (Exc TypeError,
     Window (with_program
               (lines_of
                  ["from calibre.gui2 import info_dialog";
                   "result = info_dialog(self.gui, 'Greetings',";
                   "    'Hello World. Welcome to ExecMacro Plugin.', show=True)"]%string)
               blank_form)
       (w_state default_window)).
Proof.
  destruct (function_index_changed_failures pyqt5 (txt "Sample Dialog") blank_form
              (w_state default_window)) as (_ & H & _).
  eapply H; [discriminate | reflexivity | reflexivity | reflexivity | reflexivity].
Defined.

Lemma error_line_app tb frame :
  error_line (tb ++ [frame])
  = if bool_decide (frame.1 = txt "<string>") then frame.2 else error_line tb.
Proof. unfold error_line. by rewrite foldl_app. Qed.

(** The loop keeps the line of the last frame that lies in the executed
    string. *)
Lemma error_line_last tb :
  error_line tb
  = default 0%nat (last (map snd (filter (λ frame, frame.1 = txt "<string>") tb))) ∧
  (Forall (λ frame, frame.1 ≠ txt "<string>") tb → error_line tb = 0%nat).
Proof.
  assert (error_line tb
          = default 0%nat
              (last (map snd (filter (λ frame, frame.1 = txt "<string>") tb)))) as H.
  { induction tb as [|frame tb IH] using rev_ind; [done |].
    rewrite error_line_app, filter_app, map_app, filter_cons, filter_nil.
    case_bool_decide as Hf.
    - rewrite decide_True by done. simpl. by rewrite last_snoc.
    - rewrite decide_False by done. simpl. by rewrite app_nil_r. }
  split; [done |]. intros Hnone. rewrite H. clear H.
  induction Hnone as [|frame tb Hf _ IH]; [done |].
  rewrite filter_cons_False by done. exact IH.
Qed.

(** ** The file handlers of the form *)

Arguments lift : simpl never.

Lemma open_read_run path s :
  open_read path s =
  (match files (st_host s) !! path with
   | Some content => Val content
   | None => Exc (IOError path)
   end,
   State (st_host s) (st_log s ++ [EvOpen path])).
Proof. unfold open_read. run_m. by destruct (files (st_host s) !! path). Qed.

Lemma load_file_run E Q f s :
  macrofile f ≠ [] →
  load_file_button_clicked E Q (Window f s) =
  let path := macrofile f in
  match files (st_host s) !! path with
  | None =>
      (Val tt,
       Window f (State (st_host s)
                   (st_log s ++ [EvOpen path; load_failed (IOError path)])))
  | Some content =>
      let log1 := st_log s ++ EvOpen path :: EvGetEncoding content ::
                    snd (detect (splitlines Bytes content)) in
      match fst (detect (splitlines Bytes content)) with
      | Some enc =>
          match str_decode Q enc content with
          | Some u =>
              (Val tt,
               Window (with_program u f)
                 (State (st_host s) (log1 ++ [EvInfo "Macro loaded from file" None])))
          | None =>
              (Val tt,
               Window f (State (st_host s) (log1 ++ [load_failed (CodecError enc)])))
          end
      | None =>
          match shown_bytes Q content with
          | Some u =>
              (Val tt,
               Window (with_program u f)
                 (State (st_host s) (log1 ++ [EvInfo "Macro loaded from file" None])))
          | None =>
              (Val tt, Window f (State (st_host s) (log1 ++ [load_failed TypeError])))
          end
      end
  end.
Proof.
  intros Hne. unfold load_file_button_clicked.
  destruct f as [name [|c path] box doc prog]; [done |].
  run_w. rewrite lift_run, open_read_run. cbn [fst snd st_host st_log].
  destruct (files (st_host s) !! (c :: path)) as [content|].
  2: { rewrite lift_run. unfold emit. log_eq. }
  rewrite lift_run, get_encoding_run. cbn [fst snd st_host st_log].
  destruct (fst (detect (splitlines Bytes content))) as [enc|].
  - destruct (str_decode Q enc content) as [u|]; simpl; rewrite ?lift_run;
      unfold emit; log_eq.
  - destruct (shown_bytes Q content) as [u|]; simpl; rewrite ?lift_run;
      unfold emit; log_eq.
Qed.

(** The last of a list written with its last element. *)
Ltac solve_last :=
  first [ by rewrite last_snoc
        | by rewrite !last_cons, last_snoc
        | by rewrite last_app_cons
        | by rewrite (assoc_L (++)), last_snoc
        | simpl; by rewrite !last_cons, last_snoc ].

Lemma with_macrofile_same f : macrofile f = [] → with_macrofile [] f = f.
Proof. destruct f. simpl. by intros ->. Qed.

(** With no name in [macrofile] the file is chosen first. *)
Lemma load_file_browse E Q f s :
  macrofile f = [] →
  load_file_button_clicked E Q (Window f s) =
  match choose_files E with
  | [] => (Val tt, Window f s)
  | [] :: _ => (Val tt, Window f s)
  | name :: _ => load_file_button_clicked E Q (Window (with_macrofile name f) s)
  end.
Proof.
  intros Hempty. unfold load_file_button_clicked at 1, filebrowse_button_clicked.
  destruct f as [fname mf box doc prog]. simpl in Hempty. subst mf.
  destruct (choose_files E) as [|[|c name] rest]; [done | done |].
  unfold load_file_button_clicked. done.
Qed.

(** A load from a named file: what it leaves alone, and how it ends. *)
Lemma load_file_named E Q f s :
  macrofile f ≠ [] →
  let r := load_file_button_clicked E Q (Window f s) in
  fst r = Val tt ∧
  st_host (w_state (snd r)) = st_host s ∧
  with_program (program f) (w_form (snd r)) = f ∧
  ∃ events,
    st_log (w_state (snd r)) = st_log s ++ events ∧
    Forall (λ e, is_exec e = false) events ∧
    (last events = Some (EvInfo "Macro loaded from file" None) ∨
     (∃ e, last events = Some (load_failed e)) ∧ w_form (snd r) = f).
Proof.
  intros Hne r. subst r. rewrite load_file_run by done. cbv zeta.
  assert (∀ ls, Forall (λ e, is_exec e = false) (snd (detect ls))) as Hdetect.
  { intros ls. eapply Forall_impl; [apply detect_quiet |]. by intros e [? _]. }
  assert (∀ u, with_program (program f) (with_program u f) = f) as Hback
    by (intros u; by destruct f).
  assert (with_program (program f) f = f) as Hsame by (by destruct f).
  destruct (files (st_host s) !! macrofile f) as [content|]; simpl.
  2: { split; [done |]. split; [done |]. split; [done |]. eexists. split; [done |].
       split; [by repeat constructor |]. right. split; [by eexists | done]. }
  destruct (fst (detect (splitlines Bytes content))) as [enc|].
  - destruct (str_decode Q enc content) as [u|]; simpl;
      (split; [done |]; split; [done |]; split; [done |]; eexists;
       split; [by rewrite <- (assoc_L (++)) |]; split;
       [repeat constructor; apply Forall_app; split;
        [apply Hdetect | by repeat constructor] |]).
    + left. solve_last.
    + right. split; [| done]. eexists. solve_last.
  - destruct (shown_bytes Q content) as [u|]; simpl;
      (split; [done |]; split; [done |]; split; [done |]; eexists;
       split; [by rewrite <- (assoc_L (++)) |]; split;
       [repeat constructor; apply Forall_app; split;
        [apply Hdetect | by repeat constructor] |]).
    + left. solve_last.
    + right. split; [| done]. eexists. solve_last.
Qed.

(** A load from any window returns, keeps the name, the checkbox and the
    documentation, and runs nothing. *)
Lemma load_file_quiet E Q w :
  let r := load_file_button_clicked E Q w in
  fst r = Val tt ∧
  function_name (w_form (snd r)) = function_name (w_form w) ∧
  fromfile_checkbox (w_form (snd r)) = fromfile_checkbox (w_form w) ∧
  documentation (w_form (snd r)) = documentation (w_form w) ∧
  ∃ events,
    st_log (w_state (snd r)) = st_log (w_state w) ++ events ∧
    Forall (λ e, is_exec e = false) events.
Proof.
  intros r. subst r. destruct w as [f s].
  assert (∀ g, macrofile g ≠ [] → g = with_macrofile (macrofile g) f →
               let r := load_file_button_clicked E Q (Window g s) in
               fst r = Val tt ∧
               function_name (w_form (snd r)) = function_name f ∧
               fromfile_checkbox (w_form (snd r)) = fromfile_checkbox f ∧
               documentation (w_form (snd r)) = documentation f ∧
               ∃ events,
                 st_log (w_state (snd r)) = st_log s ++ events ∧
                 Forall (λ e, is_exec e = false) events) as Hnamed.
  { intros g Hne Hg r.
    destruct (load_file_named E Q g s Hne)
      as (Hval & _ & Hform & events & Hlog & Hquiet & _).
    fold r in Hval, Hform, Hlog.
    pose proof (f_equal function_name Hform) as Hn.
    pose proof (f_equal fromfile_checkbox Hform) as Hb.
    pose proof (f_equal documentation Hform) as Hd.
    simpl in Hn, Hb, Hd. rewrite Hn, Hb, Hd, Hg. simpl.
    repeat (split; [done |]). by exists events. }
  destruct (macrofile f) as [|c path] eqn:Hpath.
  - rewrite load_file_browse by done.
    destruct (choose_files E) as [|[|d name] rest].
    + simpl. repeat (split; [done |]). exists []. by rewrite app_nil_r.
    + simpl. repeat (split; [done |]). exists []. by rewrite app_nil_r.
    + by apply Hnamed.
  - apply Hnamed; [by rewrite Hpath |]. by destruct f.
Qed.

(** X19. [load_file_button_clicked] never raises and never touches the
    store, the name, the checkbox or the documentation, and it runs
    nothing. It ends in one of three ways: nothing was chosen and the window
    is as it was; or the dialog 'Macro loaded from file' is shown; or the
    dialog 'Failed to load macro' is shown and the program text is as it
    was. *)
Theorem load_file_button_contained E Q w :
  let r := load_file_button_clicked E Q w in
  fst r = Val tt ∧
  st_host (w_state (snd r)) = st_host (w_state w) ∧
  function_name (w_form (snd r)) = function_name (w_form w) ∧
  fromfile_checkbox (w_form (snd r)) = fromfile_checkbox (w_form w) ∧
  documentation (w_form (snd r)) = documentation (w_form w) ∧
  ∃ events,
    st_log (w_state (snd r)) = st_log (w_state w) ++ events ∧
    Forall (λ e, is_exec e = false) events ∧
    (snd r = w ∨
     last events = Some (EvInfo "Macro loaded from file" None) ∨
     (∃ e, last events = Some (load_failed e)) ∧
     program (w_form (snd r)) = program (w_form w)).
Proof.
  intros r. subst r. destruct w as [f s].
  assert (∀ g, macrofile g ≠ [] →
               function_name g = function_name f →
               fromfile_checkbox g = fromfile_checkbox f →
               documentation g = documentation f → program g = program f →
               let r := load_file_button_clicked E Q (Window g s) in
               fst r = Val tt ∧
               st_host (w_state (snd r)) = st_host s ∧
               function_name (w_form (snd r)) = function_name f ∧
               fromfile_checkbox (w_form (snd r)) = fromfile_checkbox f ∧
               documentation (w_form (snd r)) = documentation f ∧
               ∃ events,
                 st_log (w_state (snd r)) = st_log s ++ events ∧
                 Forall (λ e, is_exec e = false) events ∧
                 (snd r = Window f s ∨
                  last events = Some (EvInfo "Macro loaded from file" None) ∨
                  (∃ e, last events = Some (load_failed e)) ∧
                  program (w_form (snd r)) = program f)) as Hnamed.
  { intros g Hne Hname Hbox Hdoc Hprog r.
    destruct (load_file_named E Q g s Hne) as (Hval & Hhost & Hform & events & Hlog & Hquiet & Hend).
    fold r in Hval, Hhost, Hform, Hlog, Hend.
    split; [done |]. split; [done |].
    rewrite <- Hname, <- Hbox, <- Hdoc, <- Hprog.
    pose proof (f_equal function_name Hform) as Hn.
    pose proof (f_equal fromfile_checkbox Hform) as Hb.
    pose proof (f_equal documentation Hform) as Hd.
    simpl in Hn, Hb, Hd.
    split; [done |]. split; [done |]. split; [done |].
    exists events. split; [done |]. split; [done |].
    destruct Hend as [Hinfo | [Hfail Hsame]]; [by right; left |].
    right. right. split; [done |]. by rewrite Hsame. }
  destruct (macrofile f) as [|c path] eqn:Hpath.
  - rewrite load_file_browse by done.
    destruct (choose_files E) as [|[|d name] rest].
    + simpl. repeat (split; [done |]). exists []. rewrite app_nil_r.
      split; [done |]. split; [constructor | by left].
    + simpl. repeat (split; [done |]). exists []. rewrite app_nil_r.
      split; [done |]. split; [constructor | by left].
    + apply Hnamed; by destruct f.
  - apply Hnamed; try done. by rewrite Hpath.
Qed.

(** X20. What a load puts in the editor: the bytes of the file, decoded
    with the encoding that [get_encoding] finds in them as a byte string;
    when they declare none, the bytes as the toolkit shows them. When the
    file cannot be opened or the bytes cannot be decoded, the form is as it
    was and the error dialog tells why. *)
Theorem load_file_button_decodes E Q f s :
  macrofile f ≠ [] →
  let r := load_file_button_clicked E Q (Window f s) in
  (files (st_host s) !! macrofile f = None →
     w_form (snd r) = f ∧
     last (st_log (w_state (snd r))) = Some (load_failed (IOError (macrofile f)))) ∧
  (∀ content, files (st_host s) !! macrofile f = Some content →
     (∀ enc, result (get_encoding Bytes content) = Val (Some enc) →
        match str_decode Q enc content with
        | Some u => w_form (snd r) = with_program u f
        | None =>
            w_form (snd r) = f ∧
            last (st_log (w_state (snd r))) = Some (load_failed (CodecError enc))
        end) ∧
     (result (get_encoding Bytes content) = Val None →
        match shown_bytes Q content with
        | Some u => w_form (snd r) = with_program u f
        | None =>
            w_form (snd r) = f ∧
            last (st_log (w_state (snd r))) = Some (load_failed TypeError)
        end)).
Proof.
  intros Hne r. subst r. rewrite load_file_run by done. cbv zeta. split.
  - intros ->. simpl. split; [done |]. solve_last.
  - intros content ->. rewrite result_get_encoding. split.
    + intros enc [= ->]. destruct (str_decode Q enc content); simpl; [done |].
      split; [done |]. solve_last.
    + intros [= ->]. destruct (shown_bytes Q content); simpl; [done |].
      split; [done |]. solve_last.
Qed.

Lemma load_file_button_decodes_witness :
  w_form (snd (load_file_button_clicked quiet_env pyqt5 (Window file_form file_state)))
  = with_program example_latin1 file_form.
Proof.
  destruct (load_file_button_decodes quiet_env pyqt5 file_form file_state)
    as [_ H]; [discriminate |].
  destruct (H example_latin1) as [H' _]; [reflexivity |].
  apply (H' (txt "latin-1")). vm_compute. reflexivity.
Defined.

(** X21. With no name in [macrofile], [load_file_button_clicked] asks for
    the file. When none is chosen nothing happens. A chosen file is loaded
    as if its name had been typed, and its name is in [macrofile]
    afterwards whether or not the load succeeds. *)
Theorem load_file_button_browse E Q f s :
  macrofile f = [] →
  (choose_files E = [] →
     load_file_button_clicked E Q (Window f s) = (Val tt, Window f s)) ∧
  (∀ name rest, choose_files E = name :: rest → name ≠ [] →
     load_file_button_clicked E Q (Window f s)
     = load_file_button_clicked E Q (Window (with_macrofile name f) s) ∧
     macrofile (w_form (snd (load_file_button_clicked E Q (Window f s)))) = name).
Proof.
  intros Hempty. split.
  - intros Hnone. rewrite load_file_browse by done. by rewrite Hnone.
  - intros name rest Hchosen Hne.
    assert (load_file_button_clicked E Q (Window f s)
            = load_file_button_clicked E Q (Window (with_macrofile name f) s)) as ->.
    { rewrite load_file_browse by done. rewrite Hchosen.
      by destruct name. }
    split; [done |].
    destruct (load_file_named E Q (with_macrofile name f) s) as (_ & _ & Hform & _);
      [done |].
    by apply (f_equal macrofile) in Hform.
Qed.

Lemma load_file_button_browse_witness :
  load_file_button_clicked quiet_env pyqt5 (Window blank_form init)
  = (Val tt, Window blank_form init).
Proof.
  destruct (load_file_button_browse quiet_env pyqt5 blank_form init) as [H _];
    [reflexivity |].
  apply H. reflexivity.
Defined.

Lemma open_write_run E path s :
  open_write E path s =
  if writable E path
  then (Val tt, State (with_file path [] (st_host s)) (st_log s ++ [EvOpen path]))
  else (Exc (IOError path), State (st_host s) (st_log s ++ [EvOpen path])).
Proof. unfold open_write, set_file, with_file. run_m. by destruct (writable E path). Qed.

Lemma with_file_twice path b c h : with_file path c (with_file path b h) = with_file path c h.
Proof. unfold with_file. simpl. by rewrite insert_insert_eq. Qed.

Lemma save_file_run E Q f s :
  macrofile f ≠ [] →
  save_file_button_clicked E Q (Window f s) =
  let path := macrofile f in
  let p := program f in
  let h := st_host s in
  let log1 := st_log s ++ EvGetEncoding p :: snd (detect (splitlines Unicode p)) in
  let saved := EvInfo "Macro saved to file" None in
  match fst (detect (splitlines Unicode p)) with
  | Some enc =>
      match str_encode E enc p with
      | None =>
          (Val tt,
           Window f (State h (log1 ++ [EvEncode enc p; save_failed (CodecError enc)])))
      | Some b =>
          if writable E path then
            (Val tt,
             Window f (State (with_file path b h)
                         (log1 ++ [EvEncode enc p; EvOpen path; saved])))
          else
            (Val tt,
             Window f (State h (log1 ++ [EvEncode enc p; EvOpen path;
                                         save_failed (IOError path)])))
      end
  | None =>
      if writable E path then
        match implicit_encode Q p with
        | Some b =>
            (Val tt, Window f (State (with_file path b h) (log1 ++ [EvOpen path; saved])))
        | None =>
            (Val tt,
             Window f (State (with_file path [] h)
                         (log1 ++ [EvOpen path;
                                   save_failed (CodecError (default_encoding Q))])))
        end
      else
        (Val tt, Window f (State h (log1 ++ [EvOpen path; save_failed (IOError path)])))
  end.
Proof.
  intros Hne. unfold save_file_button_clicked.
  destruct f as [name [|c path] box doc prog]; [done |].
  run_w. rewrite lift_run, get_encoding_run. cbn [fst snd st_host st_log].
  destruct (fst (detect (splitlines Unicode prog))) as [enc|].
  - destruct (str_encode E enc prog) as [b|]; [destruct (writable E (c :: path)) eqn:Hw |];
      repeat (simpl; rewrite ?lift_run; unfold open_write, set_file, with_file; run_m;
              rewrite ?Hw);
      rewrite ?insert_insert_eq; log_eq.
  - destruct (writable E (c :: path)) eqn:Hw; [destruct (implicit_encode Q prog) as [b|] |];
      repeat (simpl; rewrite ?lift_run; unfold open_write, set_file, with_file; run_m;
              rewrite ?Hw);
      rewrite ?insert_insert_eq; log_eq.
Qed.

(** X22. [save_file_button_clicked] with a file name never raises, leaves
    the form, the registry and every other file as they were. The text is
    encoded before the file is opened: when the
    declared codec fails, and when the file cannot be opened, the file is
    untouched. But a text that declares no encoding is encoded by the write
    itself, after the file was opened: when that fails, the file is left
    empty. Otherwise the file holds the encoded text. *)
Theorem save_file_button_outcomes E Q f s :
  macrofile f ≠ [] →
  let path := macrofile f in
  let r := save_file_button_clicked E Q (Window f s) in
  let h' := st_host (w_state (snd r)) in
  (fst r = Val tt ∧ w_form (snd r) = f ∧
   macros h' = macros (st_host s) ∧ current_macro h' = current_macro (st_host s) ∧
   ∀ other, other ≠ path → files h' !! other = files (st_host s) !! other) ∧
  (writable E path = false → h' = st_host s) ∧
  (∀ enc, result (get_encoding Unicode (program f)) = Val (Some enc) →
     match str_encode E enc (program f) with
     | None => h' = st_host s
     | Some b => writable E path = true → files h' !! path = Some b
     end) ∧
  (result (get_encoding Unicode (program f)) = Val None → writable E path = true →
     files h' !! path = Some (default [] (implicit_encode Q (program f)))).
Proof.
  intros Hne path r h'. subst r h' path. rewrite save_file_run by done. cbv zeta.
  rewrite result_get_encoding.
  destruct (fst (detect (splitlines Unicode (program f)))) as [enc|].
  - destruct (str_encode E enc (program f)) as [b|] eqn:Hb;
      [destruct (writable E (macrofile f)) eqn:Hw |]; simpl.
    + split; [repeat (split; [done |]); intros other Hother; by apply lookup_insert_ne |].
      split; [done |]. split; [| done].
      intros ? [= <-]. rewrite Hb. intros _. apply lookup_insert_eq.
    + split; [done |]. split; [done |]. split; [| done].
      intros ? [= <-]. by rewrite Hb.
    + split; [done |]. split; [done |]. split; [| done].
      intros ? [= <-]. by rewrite Hb.
  - destruct (writable E (macrofile f)) eqn:Hw;
      [destruct (implicit_encode Q (program f)) as [b|] |]; simpl.
    + split; [repeat (split; [done |]); intros other Hother; by apply lookup_insert_ne |].
      split; [done |]. split; [done |]. intros _ _. apply lookup_insert_eq.
    + split; [repeat (split; [done |]); intros other Hother; by apply lookup_insert_ne |].
      split; [done |]. split; [done |]. intros _ _. apply lookup_insert_eq.
    + done.
Qed.

Lemma save_file_button_outcomes_witness :
  files (st_host (w_state (snd (save_file_button_clicked quiet_env pyqt5
                                  (Window file_form init)))))
    !! txt "f.py" = Some (txt "print('hi')").
Proof.
  destruct (save_file_button_outcomes quiet_env pyqt5 file_form init)
    as (_ & _ & _ & H); [discriminate |].
  apply H; [vm_compute |]; reflexivity.
Defined.

(** X23. With no name in [macrofile], [save_file_button_clicked] asks for
    one. A name that is given goes into [macrofile] and the text is saved
    as if it had been typed. When the dialog is cancelled, [None] is handed
    to [setText]: with a toolkit that refuses it the handler raises
    [TypeError], outside its [try], and nothing else happens. *)
Theorem save_file_button_browse E Q f s :
  macrofile f = [] →
  (∀ name, choose_save_file E = Some name → name ≠ [] →
     save_file_button_clicked E Q (Window f s)
     = save_file_button_clicked E Q (Window (with_macrofile name f) s)) ∧
  (choose_save_file E = None → shown Q PNone = None →
     save_file_button_clicked E Q (Window f s) = (Exc TypeError, Window f s)) ∧
  (choose_save_file E = None → ∀ t, shown Q PNone = Some t →
     save_file_button_clicked E Q (Window f s) = (Val tt, Window (with_macrofile t f) s)).
Proof.
  intros Hempty. destruct f as [fname mf box doc prog]. simpl in Hempty. subst mf.
  split; [| split].
  - intros name Hname Hne. unfold save_file_button_clicked. run_w. rewrite Hname.
    by destruct name.
  - intros Hnone Hrefused. unfold save_file_button_clicked. run_w.
    rewrite Hnone. unfold set_text. rewrite Hrefused. done.
  - intros Hnone t Hshown. unfold save_file_button_clicked. run_w.
    rewrite Hnone. unfold set_text. rewrite Hshown. done.
Qed.

Lemma save_file_button_browse_witness :
  save_file_button_clicked quiet_env pyqt5 (Window blank_form init)
  = (Exc TypeError, Window blank_form init).
Proof.
  destruct (save_file_button_browse quiet_env pyqt5 blank_form init) as (_ & H & _);
    [reflexivity |].
  apply H; reflexivity.
Defined.

(** ** [execute_button_clicked] *)

Lemma wtry_bind {A B} (m : W A) (k : A → W B) h w :
  wtry (wbind m k) h w =
  match m w with
  | (Val a, w1) => wtry (k a) h w1
  | (Exc e, w1) => h e w1
  end.
Proof. unfold wtry, wbind. by destruct (m w) as [[a|e] w1]. Qed.

Lemma execute_raw E p s :
  execute E p s =
  (match fst (exec_prog E p (st_host s)) with Some e => Exc e | None => Val tt end,
   State (snd (exec_prog E p (st_host s))) (st_log s ++ [EvExec p])).
Proof.
  unfold execute. run_m. by destruct (exec_prog E p (st_host s)) as [[e|] h'].
Qed.

Lemma button_exec_run E Q p f h log :
  button_exec E Q p f h log =
  (Val (match fst (exec_prog E p h) with Some e => go_to_line Q e | None => None end),
   Window f (State (snd (exec_prog E p h)) (log ++ [EvExec p]))).
Proof. unfold button_exec. by destruct (exec_prog E p h). Qed.

(** [execute_button_clicked] is the optional load, then the run of the text
    of the editor. *)
Lemma execute_button_run E Q f s :
  execute_button_clicked E Q (Window f s) =
  if fromfile_checkbox f then
    let loaded := snd (load_file_button_clicked E Q (Window f s)) in
    run_text E Q (w_form loaded) (w_state loaded)
  else run_text E Q f s.
Proof.
  assert (∀ g t,
            wtry
              (f <- get_form ;;
               encoding <- lift (get_encoding Unicode (program f)) ;;
               match encoding with
               | Some enc =>
                   lift (emit (EvEncode enc (program f))) ;;
                   match str_encode E enc (program f) with
                   | Some b => lift (execute E (Encoded enc b))
                   | None => wraise (CodecError enc)
                   end
               | None => lift (execute E (Source (program f)))
               end ;;
               wret None)%ui
              (fun e => wret (go_to_line Q e)) (Window g t)
            = run_text E Q g t) as Htext.
  { intros g t. unfold run_text. run_w.
    rewrite lift_run, get_encoding_run. cbn [fst snd st_host st_log].
    destruct (fst (detect (splitlines Unicode (program g)))) as [enc|].
    - destruct (str_encode E enc (program g)) as [b|]; simpl;
        rewrite ?lift_run, ?execute_raw, ?button_exec_run; simpl.
      + destruct (fst (exec_prog E (Encoded enc b) (st_host t))); log_eq.
      + log_eq.
    - simpl. rewrite ?lift_run, ?execute_raw, ?button_exec_run. simpl.
      destruct (fst (exec_prog E (Source (program g)) (st_host t))); log_eq. }
  unfold execute_button_clicked. rewrite wtry_bind.
  change (get_form (Window f s)) with (Val f, Window f s). cbv beta iota.
  rewrite wtry_bind.
  destruct (fromfile_checkbox f).
  - destruct (load_file_quiet E Q (Window f s)) as (Hval & _).
    destruct (load_file_button_clicked E Q (Window f s)) as [r [g t]].
    simpl in Hval. subst r. apply Htext.
  - apply Htext.
Qed.



Lemma button_quiet (p : text) (extra : list event) :
  Forall (λ e, is_exec e = false ∧ is_error e = false) extra →
  Forall (λ e, is_exec e = false ∧ is_error e = false)
    (EvGetEncoding p :: snd (detect (splitlines Unicode p)) ++ extra).
Proof.
  intros Hextra. constructor; [done |]. apply Forall_app. split; [apply detect_quiet | done].
Qed.

(** X25. The Execute button of the dialog against the action of the
    toolbar, when the form holds the saved record of the current macro and
    the checkbox is unset. For a program that is not empty both make the
    same calls of [get_encoding], of its patterns and of the codec, and
    hand the same payload to [exec]; when the codec fails neither calls
    [exec], and [execute_current_macro] shows its error dialog where the
    button shows none. For an empty program [execute_current_macro] does
    nothing at all, while the button calls [exec] on the empty text. *)
Theorem execute_button_as_current E Q f s :
  fromfile_checkbox f = false →
  macros (st_host s) !! current_macro (st_host s) = Some (record_of f) →
  let pressed := st_log (w_state (snd (execute_button_clicked E Q (Window f s)))) in
  let run := st_log (snd (execute_current_macro E s)) in
  (program f ≠ [] →
     ∃ before,
       Forall (λ e, is_exec e = false ∧ is_error e = false) before ∧
       ((∃ p rest rest',
           pressed = st_log s ++ before ++ EvExec p :: rest ∧
           run = st_log s ++ before ++ EvExec p :: rest') ∨
        (∃ enc,
           pressed = st_log s ++ before ∧
           run = st_log s ++ before ++ [failed (CodecError enc)]))) ∧
  (program f = [] →
     execute_current_macro E s = (Val tt, s) ∧
     pressed = st_log s ++ [EvGetEncoding []; EvExec (Source [])]).
Proof.
  intros Hbox Hrecord pressed run. subst pressed run.
  destruct (record_of_fields f) as (Hp & _ & Hc & _).
  assert (get_truthy (record_of f) (txt "execfromfile") = false) as Hfile
    by (unfold get_truthy; by rewrite Hc, Hbox).
  unfold execute_current_macro.
  change (bind get_host ?k s) with (k (st_host s) s). cbv beta.
  rewrite execute_button_run, Hbox. unfold run_text. cbv zeta. split.
  - intros Hprog.
    rewrite (execute_macro_inline E _ s (record_of f) (program f)) by done.
    cbv zeta. rewrite select_current, marks_current. cbn [app].
    destruct (fst (detect (splitlines Unicode (program f)))) as [enc|].
    + destruct (str_encode E enc (program f)) as [b|].
      * exists (EvGetEncoding (program f) ::
                snd (detect (splitlines Unicode (program f))) ++
                [EvEncode enc (program f)]).
        split; [apply button_quiet; by repeat constructor |].
        left. rewrite button_exec_run. unfold guarded_exec.
        destruct (exec_prog E (Encoded enc b) (st_host s)) as [r h'].
        exists (Encoded enc b), [], (match r with Some e => [failed e] | None => [] end).
        simpl. split; log_eq.
      * exists (EvGetEncoding (program f) ::
                snd (detect (splitlines Unicode (program f))) ++
                [EvEncode enc (program f)]).
        split; [apply button_quiet; by repeat constructor |].
        right. exists enc. simpl. split; log_eq.
    + exists (EvGetEncoding (program f) ::
              snd (detect (splitlines Unicode (program f))) ++ []).
      split; [apply button_quiet; constructor |].
      left. rewrite button_exec_run. unfold guarded_exec.
      destruct (exec_prog E (Source (program f)) (st_host s)) as [r h'].
      exists (Source (program f)), [], (match r with Some e => [failed e] | None => [] end).
      simpl. rewrite app_nil_r. split; log_eq.
  - intros Hempty. rewrite Hempty in *. split.
    + rewrite execute_macro_select, select_current, marks_current, app_nil_r.
      cbv zeta. rewrite Hrecord, (has_program_nonempty _ _ Hp).
      unfold run_macro. rewrite Hfile. run_m. rewrite Hp. simpl. by destruct s.
    + rewrite button_exec_run. simpl. log_eq.
Qed.

Lemma execute_button_as_current_witness :
  execute_current_macro quiet_env
    (State (Host (txt "m") {[ txt "m" := record_of (with_program [] form_m) ]} ∅) [])
  = (Val tt,
     State (Host (txt "m") {[ txt "m" := record_of (with_program [] form_m) ]} ∅) []).
Proof.
  destruct (execute_button_as_current quiet_env pyqt5 (with_program [] form_m)
              (State (Host (txt "m") {[ txt "m" := record_of (with_program [] form_m) ]} ∅)
                 []))
    as [_ H]; [reflexivity | reflexivity |].
  apply H. reflexivity.
Defined.

(** X26. What [execute_button_clicked] returns is where the cursor goes.
    When nothing is raised the cursor stays. When the codec or the executed
    program raises, the cursor goes to the line of the last frame of the
    traceback whose file is the executed string, provided there is such a
    frame and its line is positive; otherwise it stays. *)
Theorem execute_button_line E Q w :
  let loaded :=
    if fromfile_checkbox (w_form w)
    then snd (load_file_button_clicked E Q w) else w in
  let text := program (w_form loaded) in
  let line e :=
    default 0%nat
      (last (map snd (filter (λ frame, frame.1 = txt "<string>") (frames Q e)))) in
  let cursor e := if bool_decide (0 < line e)%nat then Some (line e) else None in
  let after p :=
    match fst (exec_prog E p (st_host (w_state loaded))) with
    | Some e => cursor e
    | None => None
    end in
  (result (get_encoding Unicode text) = Val None →
     fst (execute_button_clicked E Q w) = Val (after (Source text))) ∧
  (∀ enc, result (get_encoding Unicode text) = Val (Some enc) →
     fst (execute_button_clicked E Q w)
     = Val (match str_encode E enc text with
            | Some b => after (Encoded enc b)
            | None => cursor (CodecError enc)
            end)).
Proof.
  intros loaded text line cursor after.
  assert (∀ e, go_to_line Q e = cursor e) as Hgo.
  { intros e. unfold go_to_line, cursor, line. cbv zeta.
    by rewrite (proj1 (error_line_last (frames Q e))). }
  assert (execute_button_clicked E Q w
          = run_text E Q (w_form loaded) (w_state loaded)) as ->.
  { destruct w as [f s]. rewrite execute_button_run. subst loaded.
    cbn [w_form]. by destruct (fromfile_checkbox f). }
  unfold run_text. cbv zeta. rewrite result_get_encoding. fold text. split.
  - intros [= ->]. rewrite button_exec_run. simpl. subst after. cbv beta.
    destruct (fst (exec_prog E (Source text) (st_host (w_state loaded)))); [| done].
    by rewrite Hgo.
  - intros enc [= ->]. destruct (str_encode E enc text) as [b|].
    + rewrite button_exec_run. simpl. subst after. cbv beta.
      destruct (fst (exec_prog E (Encoded enc b) (st_host (w_state loaded)))); [| done].
      by rewrite Hgo.
    + simpl. by rewrite Hgo.
Qed.

Lemma execute_button_line_witness :
  fst (execute_button_clicked failing_env traced (Window form_m init)) = Val (Some 7%nat).
Proof.
  destruct (execute_button_line failing_env traced (Window form_m init)) as [H _].
  rewrite H; [reflexivity | vm_compute; reflexivity].
Defined.
